(** * GuardDuty filter finding-criteria codec

    A shallow embedding of the criteria codec of the GuardDuty filter
    resource (resource_aws_guardduty_filter.go): the field registry
    [criteriaMap], the validation [conditionAllowedForCriterion], the
    serializer [serializeFindingCriteria] with its helpers
    [conditionValueToStrings] and [conditionValueToInt], and the flattener
    [flattenFindingCriteria] with [flattenStringCondition] and
    [flattenIntCondition].

    Go maps are finite maps ([gmap string _]); the pointer stored under a
    key is owned by that key alone, so the in-place mutation of a
    [*guardduty.Condition] is an update of the entry.  An error return is
    a value of [SerializeResult]; a run-time panic (index out of range)
    is a separate outcome. *)

From Stdlib Require Import ZArith String Ascii List Bool DecimalString.
From Stdlib Require DecimalPos.
From stdpp Require Import gmap strings list fin_maps.

#[local] Set Warnings "-clear-no-such-hyp,-register-all".

Local Open Scope string_scope.
Local Open Scope Z_scope.
Local Open Scope list_scope.

(** ** strconv: base-10, 64-bit integers *)

Module strconv.

Definition maxUint64 : Z := 2 ^ 64 - 1.

(** The digit switch of ParseUint for base 10: ['0' <= c && c <= '9']. *)
Definition digit (c : ascii) : option Z :=
  let n := Z.of_N (N_of_ascii c) in
  if (48 <=? n) && (n <=? 57) then Some (n - 48) else None.

(** Outcome of a conversion: a value, a syntax error or a range error. *)
Inductive NumResult : Type :=
| NumOk (n : Z)
| ErrSyntax
| ErrRange.

(** The loop of ParseUint(s, 10, 64) over the bytes of [s], with the
    accumulator [n]; [cutoff = maxUint64/10 + 1]. *)
Fixpoint parseUintLoop (s : string) (n : Z) : NumResult :=
  match s with
  | EmptyString => NumOk n
  | String c rest =>
      match digit c with
      | None => ErrSyntax
      | Some d =>
          if maxUint64 / 10 + 1 <=? n then ErrRange
          else
            let n1 := n * 10 + d in
            if maxUint64 <? n1 then ErrRange else parseUintLoop rest n1
      end
  end.

Definition ParseUint (s : string) : NumResult :=
  match s with
  | EmptyString => ErrSyntax
  | _ => parseUintLoop s 0
  end.

(** ParseInt(s, 10, 64): an optional sign, then ParseUint, then the
    check against [cutoff = 1 << 63]. *)
Definition ParseInt (s : string) : NumResult :=
  match s with
  | EmptyString => ErrSyntax
  | String c rest =>
      let neg := Ascii.eqb c "-" in
      let body := if Ascii.eqb c "+" || neg then rest else s in
      match ParseUint body with
      | ErrSyntax => ErrSyntax
      | ErrRange => ErrRange
      | NumOk un =>
          let cutoff := 2 ^ 63 in
          if negb neg && (cutoff <=? un) then ErrRange
          else if neg && (cutoff <? un) then ErrRange
          else NumOk (if neg then - un else un)
      end
  end.

(** FormatInt(n, 10): the decimal digits, with a leading minus sign for
    a negative number. *)
Definition FormatInt (n : Z) : string :=
  NilZero.string_of_int (Z.to_int n).

End strconv.

(** ** The data model *)

(** A criterion of the configuration: the attribute bag with the keys
    "field", "condition" and "values". *)
Record Criterion : Type := mkCriterion {
  field : string;
  condition : string;
  values : list string
}.

(** guardduty.Condition: two string slices and four optional int64. *)
Record Condition : Type := mkCondition {
  Equals : list string;
  NotEquals : list string;
  GreaterThan : option Z;
  GreaterThanOrEqual : option Z;
  LessThan : option Z;
  LessThanOrEqual : option Z
}.

(** The zero value [guardduty.Condition{}]. *)
Definition emptyCondition : Condition :=
  mkCondition [] [] None None None None.

Global Instance Criterion_eq_dec : EqDecision Criterion.
Proof. solve_decision. Defined.

Global Instance Condition_eq_dec : EqDecision Condition.
Proof. solve_decision. Defined.

(** guardduty.FindingCriteria: the map [Criterion] from field name to
    condition record. *)
Abbreviation FindingCriteria := (gmap string Condition).

(** ** The field registry *)

Definition eqOnly : list string := ["equals"; "not_equals"].

Definition allSix : list string :=
  ["equals"; "not_equals"; "greater_than"; "greater_than_or_equal";
   "less_than"; "less_than_or_equal"].

(** The map literal returned by [criteriaMap], entry by entry. *)
Definition criteriaTable : list (string * list string) :=
  [ ("confidence", eqOnly);
    ("id", eqOnly);
    ("account_id", eqOnly);
    ("region", eqOnly);
    ("resource.accessKeyDetails.accessKeyId", eqOnly);
    ("resource.accessKeyDetails.principalId", eqOnly);
    ("resource.accessKeyDetails.userName", eqOnly);
    ("resource.accessKeyDetails.userType", eqOnly);
    ("resource.instanceDetails.iamInstanceProfile.id", eqOnly);
    ("resource.instanceDetails.imageId", eqOnly);
    ("resource.instanceDetails.instanceId", eqOnly);
    ("resource.instanceDetails.networkInterfaces.ipv6Addresses", eqOnly);
    ("resource.instanceDetails.networkInterfaces.privateIpAddresses.privateIpAddress", eqOnly);
    ("resource.instanceDetails.networkInterfaces.publicDnsName", eqOnly);
    ("resource.instanceDetails.networkInterfaces.publicIp", eqOnly);
    ("resource.instanceDetails.networkInterfaces.securityGroups.groupId", eqOnly);
    ("resource.instanceDetails.networkInterfaces.securityGroups.groupName", eqOnly);
    ("resource.instanceDetails.networkInterfaces.subnetId", eqOnly);
    ("resource.instanceDetails.networkInterfaces.vpcId", eqOnly);
    ("resource.instanceDetails.tags.key", eqOnly);
    ("resource.instanceDetails.tags.value", eqOnly);
    ("resource.resourceType", eqOnly);
    ("service.action.actionType", eqOnly);
    ("service.action.awsApiCallAction.api", eqOnly);
    ("service.action.awsApiCallAction.callerType", eqOnly);
    ("service.action.awsApiCallAction.remoteIpDetails.city.cityName", eqOnly);
    ("service.action.awsApiCallAction.remoteIpDetails.country.countryName", eqOnly);
    ("service.action.awsApiCallAction.remoteIpDetails.ipAddressV4", eqOnly);
    ("service.action.awsApiCallAction.remoteIpDetails.organization.asn", eqOnly);
    ("service.action.awsApiCallAction.remoteIpDetails.organization.asnOrg", eqOnly);
    ("service.action.awsApiCallAction.serviceName", eqOnly);
    ("service.action.dnsRequestAction.domain", eqOnly);
    ("service.action.networkConnectionAction.blocked", eqOnly);
    ("service.action.networkConnectionAction.connectionDirection", eqOnly);
    ("service.action.networkConnectionAction.localPortDetails.port", eqOnly);
    ("service.action.networkConnectionAction.protocol", eqOnly);
    ("service.action.networkConnectionAction.remoteIpDetails.city.cityName", eqOnly);
    ("service.action.networkConnectionAction.remoteIpDetails.country.countryName", eqOnly);
    ("service.action.networkConnectionAction.remoteIpDetails.ipAddressV4", eqOnly);
    ("service.action.networkConnectionAction.remoteIpDetails.organization.asn", eqOnly);
    ("service.action.networkConnectionAction.remoteIpDetails.organization.asnOrg", eqOnly);
    ("service.action.networkConnectionAction.remotePortDetails.port", eqOnly);
    ("service.additionalInfo.threatListName", eqOnly);
    ("service.archived", eqOnly);
    ("service.resourceRole", eqOnly);
    ("severity", eqOnly);
    ("type", eqOnly);
    ("updatedAt", allSix) ].

(** Lookup in an entry list: the first entry with the key. *)
Fixpoint assocLookup (t : list (string * list string)) (f : string)
  : option (list string) :=
  match t with
  | [] => None
  | (k, v) :: rest => if String.eqb k f then Some v else assocLookup rest f
  end.

(** [criteriaMap()[f]]: indexing a Go map with an absent key gives the
    zero value, here the nil slice. *)
Definition criteriaMap (f : string) : list string :=
  match assocLookup criteriaTable f with
  | Some conds => conds
  | None => []
  end.

(** [criteriaFields]: the keys of the registry. *)
Definition criteriaFields : list string := map fst criteriaTable.

(** The [for ... range availableConditions] loop of
    [conditionAllowedForCriterion]. *)
Fixpoint containsString (l : list string) (s : string) : bool :=
  match l with
  | [] => false
  | x :: rest => if String.eqb x s then true else containsString rest s
  end.

Definition conditionAllowedForCriterion (criterion : Criterion) : bool :=
  containsString (criteriaMap (field criterion)) (condition criterion).

(** ** Serialize *)

(** The errors built with [fmt.Errorf]. *)
Inductive Error : Type :=
| UnsupportedCondition (supported : list string)
    (* "The condition is not supported for the given field. Supported
       conditions are: %v" *)
| NotAnInteger (value : string)
    (* "Value seems to be not an integer: %v" *)
| ExactlyOneValue (given : list string)
    (* "Exactly one value must be given for conditions like less_ or
       greater_than. Instead given: %v" *)
| ParsingFailed (value : string).
    (* "Parsing condition value failed: %s" *)

Inductive SerializeResult (A : Type) : Type :=
| Ok (a : A)
| Err (e : Error)
| Panic.
Arguments Ok {A} a.
Arguments Err {A} e.
Arguments Panic {A}.

Definition conditionValueToStrings (untypedValues : list string)
  : list string := untypedValues.

Definition conditionValueToInt (untypedValues : list string)
  : Error + Z :=
  match untypedValues with
  | [untypedValue] =>
      match strconv.ParseInt untypedValue with
      | strconv.NumOk typedValue => inr typedValue
      | _ => inl (ParsingFailed untypedValue)
      end
  | _ => inl (ExactlyOneValue untypedValues)
  end.

(** The four ordering cases share one shape: convert the value; on an
    error build the message from [values[0]] (which panics on an empty
    slice); otherwise create the record if the field has none, else set
    the attribute on the record already there. *)
Definition setScalar (criteria : FindingCriteria) (c : Criterion)
    (fresh : Z → Condition) (update : Z → Condition → Condition)
  : SerializeResult FindingCriteria :=
  match conditionValueToInt (values c) with
  | inl _ =>
      match values c with
      | [] => Panic
      | v0 :: _ => Err (NotAnInteger v0)
      end
  | inr value =>
      match criteria !! field c with
      | None => Ok (<[field c := fresh value]> criteria)
      | Some r => Ok (<[field c := update value r]> criteria)
      end
  end.

(** One iteration of the loop of [serializeFindingCriteria]. *)
Definition serializeStep (criteria : FindingCriteria) (c : Criterion)
  : SerializeResult FindingCriteria :=
  if negb (conditionAllowedForCriterion c) then
    Err (UnsupportedCondition (criteriaMap (field c)))
  else if String.eqb (condition c) "equals" then
    Ok (<[field c :=
            mkCondition (conditionValueToStrings (values c)) [] None None None None]>
          criteria)
  else if String.eqb (condition c) "greater_than" then
    setScalar criteria c
      (λ v, mkCondition [] [] (Some v) None None None)
      (λ v r, mkCondition (Equals r) (NotEquals r) (Some v)
                (GreaterThanOrEqual r) (LessThan r) (LessThanOrEqual r))
  else if String.eqb (condition c) "greater_than_or_equal" then
    setScalar criteria c
      (λ v, mkCondition [] [] None (Some v) None None)
      (λ v r, mkCondition (Equals r) (NotEquals r) (GreaterThan r)
                (Some v) (LessThan r) (LessThanOrEqual r))
  else if String.eqb (condition c) "less_than" then
    setScalar criteria c
      (λ v, mkCondition [] [] None None (Some v) None)
      (λ v r, mkCondition (Equals r) (NotEquals r) (GreaterThan r)
                (GreaterThanOrEqual r) (Some v) (LessThanOrEqual r))
  else if String.eqb (condition c) "less_than_or_equal" then
    setScalar criteria c
      (λ v, mkCondition [] [] None None None (Some v))
      (λ v r, mkCondition (Equals r) (NotEquals r) (GreaterThan r)
                (GreaterThanOrEqual r) (LessThan r) (Some v))
  else if String.eqb (condition c) "not_equals" then
    Ok (<[field c :=
            mkCondition [] (conditionValueToStrings (values c)) None None None None]>
          criteria)
  else Ok criteria.

(** The loop, from the map accumulated so far. *)
Fixpoint serializeFrom (criteria : FindingCriteria) (l : list Criterion)
  : SerializeResult FindingCriteria :=
  match l with
  | [] => Ok criteria
  | c :: rest =>
      match serializeStep criteria c with
      | Ok criteria' => serializeFrom criteria' rest
      | Err e => Err e
      | Panic => Panic
      end
  end.

(** [inputFindingCriteria] is the list that [Set.List()] returns for the
    "criterion" set, in the order the loop visits it. *)
Definition serializeFindingCriteria (inputFindingCriteria : list Criterion)
  : SerializeResult FindingCriteria :=
  serializeFrom ∅ inputFindingCriteria.

(** ** Flatten *)

Definition flattenIntCondition (f conditionName : string) (conditionValue : Z)
  : Criterion :=
  mkCriterion f conditionName [strconv.FormatInt conditionValue].

Definition flattenStringCondition (f conditionName : string)
    (conditionValues : list string) : Criterion :=
  mkCriterion f conditionName conditionValues.

Definition emitStrings (f name : string) (vs : list string) : list Criterion :=
  match vs with
  | [] => []
  | _ => [flattenStringCondition f name vs]
  end.

Definition emitInt (f name : string) (v : option Z) : list Criterion :=
  match v with
  | None => []
  | Some n => [flattenIntCondition f name n]
  end.

(** The body of the loop of [flattenFindingCriteria]: the six checks, in
    the order they are written, each appending at most one criterion. *)
Definition flattenConditions (f : string) (conditions : Condition)
  : list Criterion :=
  emitStrings f "equals" (Equals conditions)
  ++ emitStrings f "not_equals" (NotEquals conditions)
  ++ emitInt f "greater_than" (GreaterThan conditions)
  ++ emitInt f "greater_than_or_equal" (GreaterThanOrEqual conditions)
  ++ emitInt f "less_than" (LessThan conditions)
  ++ emitInt f "less_than_or_equal" (LessThanOrEqual conditions).

(** The loop over the map entries in the order [entries] in which the
    iteration visits them. *)
Fixpoint flattenEntries (entries : list (string * Condition))
  : list Criterion :=
  match entries with
  | [] => []
  | (f, conditions) :: rest =>
      flattenConditions f conditions ++ flattenEntries rest
  end.

(** Go leaves the iteration order of a map open: [order] is an order in
    which a range loop may visit the entries of [m]. *)
Definition iterationOrder (m : FindingCriteria)
    (order : list (string * Condition)) : Prop :=
  order ≡ₚ map_to_list m.

(** [flatCriteria], as the loop leaves it before it is handed to
    [schema.NewSet], for one iteration order, the one of [map_to_list]. *)
Definition flattenFindingCriteria (findingCriteriaRemote : FindingCriteria)
  : list Criterion :=
  flattenEntries (map_to_list findingCriteriaRemote).

(** ** Shapes and predicates used by the statements *)

(** What an accepted step does, by condition. *)
Inductive StepShape (m : gmap string Condition) (c : Criterion)
  : SerializeResult (gmap string Condition) → Prop :=
| ShapeEquals :
    condition c = "equals" →
    StepShape m c
      (Ok (<[field c := mkCondition (values c) [] None None None None]> m))
| ShapeNotEquals :
    condition c = "not_equals" →
    StepShape m c
      (Ok (<[field c := mkCondition [] (values c) None None None None]> m))
| ShapeGreaterThan :
    condition c = "greater_than" →
    StepShape m c
      (setScalar m c
        (λ v, mkCondition [] [] (Some v) None None None)
        (λ v r, mkCondition (Equals r) (NotEquals r) (Some v)
                  (GreaterThanOrEqual r) (LessThan r) (LessThanOrEqual r)))
| ShapeGreaterThanOrEqual :
    condition c = "greater_than_or_equal" →
    StepShape m c
      (setScalar m c
        (λ v, mkCondition [] [] None (Some v) None None)
        (λ v r, mkCondition (Equals r) (NotEquals r) (GreaterThan r)
                  (Some v) (LessThan r) (LessThanOrEqual r)))
| ShapeLessThan :
    condition c = "less_than" →
    StepShape m c
      (setScalar m c
        (λ v, mkCondition [] [] None None (Some v) None)
        (λ v r, mkCondition (Equals r) (NotEquals r) (GreaterThan r)
                  (GreaterThanOrEqual r) (Some v) (LessThanOrEqual r)))
| ShapeLessThanOrEqual :
    condition c = "less_than_or_equal" →
    StepShape m c
      (setScalar m c
        (λ v, mkCondition [] [] None None None (Some v))
        (λ v r, mkCondition (Equals r) (NotEquals r) (GreaterThan r)
                  (GreaterThanOrEqual r) (LessThan r) (Some v))).

(** The four ordering conditions. *)
Definition isOrdering (c : string) : bool :=
  String.eqb c "greater_than" || String.eqb c "greater_than_or_equal"
  || String.eqb c "less_than" || String.eqb c "less_than_or_equal".

(** Whether the attribute named by a condition is present on a record:
    a non-empty slice, or a pointer that is not nil. *)
Definition attributePresent (r : Condition) (name : string) : bool :=
  if String.eqb name "equals" then negb (bool_decide (Equals r = []))
  else if String.eqb name "not_equals" then negb (bool_decide (NotEquals r = []))
  else if String.eqb name "greater_than" then bool_decide (is_Some (GreaterThan r))
  else if String.eqb name "greater_than_or_equal"
    then bool_decide (is_Some (GreaterThanOrEqual r))
  else if String.eqb name "less_than" then bool_decide (is_Some (LessThan r))
  else if String.eqb name "less_than_or_equal"
    then bool_decide (is_Some (LessThanOrEqual r))
  else false.

(** A criterion whose values come back unchanged: an ordering criterion
    holds the decimal form that [FormatInt] prints for its integer, an
    equals or not_equals criterion has at least one value. *)
Definition canonicalCriterion (c : Criterion) : bool :=
  if isOrdering (condition c) then
    match values c with
    | [v] =>
        match strconv.ParseInt v with
        | strconv.NumOk n => String.eqb (strconv.FormatInt n) v
        | _ => false
        end
    | _ => false
    end
  else
    match values c with
    | [] => false
    | _ => true
    end.

(** No equals or not_equals criterion names a field that an earlier
    criterion of the list (or [seen]) names. *)
Fixpoint keepsRecords (seen : list string) (l : list Criterion) : bool :=
  match l with
  | [] => true
  | c :: rest =>
      (isOrdering (condition c) || negb (containsString seen (field c)))
      && keepsRecords (field c :: seen) rest
  end.

Definition criterionKey (c : Criterion) : string * string :=
  (field c, condition c).

(** The criteria that Flatten emits from a map, whatever the order. *)
Definition emitted (m : gmap string Condition) (x : Criterion) : Prop :=
  ∃ r, m !! field x = Some r ∧ x ∈ flattenConditions (field x) r.

(** The criteria emitted for a field before a step. *)
Definition emittedFor (m : gmap string Condition) (f : string)
  : list Criterion :=
  match m !! f with
  | Some r => flattenConditions f r
  | None => []
  end.

(** Equivalence of criteria as the round trip states it: the same field
    and condition, and the same values, up to their order for equals and
    not_equals. *)
Definition isSetValued (c : string) : bool :=
  String.eqb c "equals" || String.eqb c "not_equals".

Definition equivalentCriterion (a b : Criterion) : Prop :=
  field a = field b ∧ condition a = condition b
  ∧ if isSetValued (condition a) then values a ≡ₚ values b
    else values a = values b.

Definition equivalentCriteria (l1 l2 : list Criterion) : Prop :=
  (∀ a, a ∈ l1 → ∃ b, b ∈ l2 ∧ equivalentCriterion a b)
  ∧ (∀ b, b ∈ l2 → ∃ a, a ∈ l1 ∧ equivalentCriterion a b).

(** ** Decimal digits as integers *)

(** The integer that the digits [d] denote after the prefix [acc],
    most significant digit first. *)
Fixpoint uintValue (d : Decimal.uint) (acc : Z) : Z :=
  match d with
  | Decimal.Nil => acc
  | Decimal.D0 l => uintValue l (10 * acc)
  | Decimal.D1 l => uintValue l (10 * acc + 1)
  | Decimal.D2 l => uintValue l (10 * acc + 2)
  | Decimal.D3 l => uintValue l (10 * acc + 3)
  | Decimal.D4 l => uintValue l (10 * acc + 4)
  | Decimal.D5 l => uintValue l (10 * acc + 5)
  | Decimal.D6 l => uintValue l (10 * acc + 6)
  | Decimal.D7 l => uintValue l (10 * acc + 7)
  | Decimal.D8 l => uintValue l (10 * acc + 8)
  | Decimal.D9 l => uintValue l (10 * acc + 9)
  end.

(** The int64 range. *)
Definition int64 (n : Z) : Prop := - 2 ^ 63 <= n < 2 ^ 63.

(** ** The resource identifier *)

(** The first occurrence of the separator: the text before it and the
    text after it. *)
Fixpoint cutFirst (sep : ascii) (s : string) : option (string * string) :=
  match s with
  | EmptyString => None
  | String c rest =>
      if Ascii.eqb c sep then Some (EmptyString, rest)
      else match cutFirst sep rest with
           | Some (before, after) => Some (String c before, after)
           | None => None
           end
  end.

(** [strings.SplitN(s, sep, 2)] for a one-byte separator: at most one cut,
    at the first occurrence. *)
Definition SplitN2 (s : string) (sep : ascii) : list string :=
  match cutFirst sep s with
  | Some (before, after) => [before; after]
  | None => [s]
  end.

(** [strings.Join([]string{a, b}, "_")], the identifier that Create and
    Read give to the resource. *)
Definition filterId (detectorId name : string) : string :=
  String.append detectorId (String "_" name).

(** "Error Importing aws_guardduty_filter record: '%s' ..." *)
Inductive ImportError : Type :=
| BadImportId (importedId : string).

Definition parseImportedId (importedId : string)
  : ImportError + (string * string) :=
  match SplitN2 importedId "_" with
  | part0 :: part1 :: _ => inr (part0, part1)
  | _ => inl (BadImportId importedId)
  end.

(** Whether a byte occurs in a string. *)
Fixpoint containsByte (sep : ascii) (s : string) : bool :=
  match s with
  | EmptyString => false
  | String c rest => Ascii.eqb c sep || containsByte sep rest
  end.

(** ** The schema of a criterion *)

(** The conditions that the schema's [StringInSlice] admits. *)
Definition schemaConditions : list string :=
  ["equals"; "not_equals"; "greater_than"; "greater_than_or_equal";
   "less_than"; "less_than_or_equal"].

(** [validation.StringInSlice(valid, false)]: the value is one of the
    strings, compared exactly. *)
Definition StringInSlice (valid : list string) (v : string) : bool :=
  containsString valid v.

(** The "field" and "condition" validations of the criterion schema. *)
Definition schemaValid (c : Criterion) : bool :=
  StringInSlice criteriaFields (field c)
  && StringInSlice schemaConditions (condition c).

(** A criterion that one iteration of the serializer accepts. *)
Definition acceptable (c : Criterion) : bool :=
  conditionAllowedForCriterion c
  && (if isOrdering (condition c) then
        match conditionValueToInt (values c) with
        | inr _ => true
        | inl _ => false
        end
      else true).

(** Every integer of a record is an int64. *)
Definition int64Condition (r : Condition) : Prop :=
  (∀ n, GreaterThan r = Some n → int64 n)
  ∧ (∀ n, GreaterThanOrEqual r = Some n → int64 n)
  ∧ (∀ n, LessThan r = Some n → int64 n)
  ∧ (∀ n, LessThanOrEqual r = Some n → int64 n).

(** ** Elasticsearch advanced security options *)

(** A dynamically typed value of the configuration: [interface{}] holding
    nil, a bool, a string, a [[]interface{}] or a
    [map[string]interface{}]. *)
Inductive Value : Type :=
| VNil
| VBool (b : bool)
| VString (s : string)
| VList (l : list Value)
| VMap (m : gmap string Value).

(** The outcome of a call that may panic on a failed type assertion or an
    index out of range. *)
Inductive Outcome (A : Type) : Type :=
| Returns (a : A)
| Panics.
Arguments Returns {A} a.
Arguments Panics {A}.

(** elasticsearch.MasterUserOptions *)
Record MasterUserOptions : Type := mkMasterUserOptions {
  MasterUserARN : option string;
  MasterUserName : option string;
  MasterUserPassword : option string
}.

(** elasticsearch.AdvancedSecurityOptionsInput; its field
    [MasterUserOptions] is [InputMasterUserOptions] here. *)
Record AdvancedSecurityOptionsInput : Type := mkAdvancedSecurityOptionsInput {
  Enabled : option bool;
  InternalUserDatabaseEnabled : option bool;
  InputMasterUserOptions : option MasterUserOptions
}.

(** elasticsearch.AdvancedSecurityOptions, the fields that are read. *)
Record AdvancedSecurityOptions : Type := mkAdvancedSecurityOptions {
  OutputEnabled : option bool;
  OutputInternalUserDatabaseEnabled : option bool
}.

(** [v, ok := x.(string); ok && v != ""] on the value under a key *)
Definition nonEmptyString (m : gmap string Value) (key : string)
  : option string :=
  match m !! key with
  | Some (VString v) => if String.eqb v "" then None else Some v
  | _ => None
  end.

(** The block guarded by [len(v) > 0 && v[0] != nil]. *)
Definition expandMasterUserOptions (v : list Value)
  : Outcome (option MasterUserOptions) :=
  match v with
  | [] => Returns None
  | VNil :: _ => Returns None
  | VMap masterUserOptions :: _ =>
      Returns (Some (mkMasterUserOptions
        (nonEmptyString masterUserOptions "master_user_arn")
        (nonEmptyString masterUserOptions "master_user_name")
        (nonEmptyString masterUserOptions "master_user_password")))
  | _ :: _ => Panics
  end.

Definition expandAdvancedSecurityOptions (m : list Value)
  : Outcome AdvancedSecurityOptionsInput :=
  match m with
  | VMap group :: _ =>
      match group !! "enabled" with
      | None => Returns (mkAdvancedSecurityOptionsInput None None None)
      | Some (VBool false) =>
          Returns (mkAdvancedSecurityOptionsInput (Some false) None None)
      | Some (VBool true) =>
          let internal :=
            match group !! "internal_user_database_enabled" with
            | Some (VBool v) => Some v
            | _ => None
            end in
          match group !! "master_user_options" with
          | Some (VList v) =>
              match expandMasterUserOptions v with
              | Returns muo =>
                  Returns (mkAdvancedSecurityOptionsInput (Some true) internal muo)
              | Panics => Panics
              end
          | _ => Returns (mkAdvancedSecurityOptionsInput (Some true) internal None)
          end
      | Some _ => Panics
      end
  | _ => Panics
  end.

(** [aws.BoolValue]: a nil pointer reads as false. *)
Definition BoolValue (b : option bool) : bool :=
  match b with
  | Some v => v
  | None => false
  end.

Definition flattenAdvancedSecurityOptions
    (advancedSecurityOptions : option AdvancedSecurityOptions)
  : list (gmap string Value) :=
  match advancedSecurityOptions with
  | None => []
  | Some o =>
      [ <["enabled" := VBool (BoolValue (OutputEnabled o))]>
          (<["internal_user_database_enabled" :=
               VBool (BoolValue (OutputInternalUserDatabaseEnabled o))]> ∅) ]
  end.

(** * Properties *)

(** ** Decimal conversions on concrete strings *)

Example ParseInt_plain : strconv.ParseInt "10" = strconv.NumOk 10.
Proof. reflexivity. Qed.

Example ParseInt_signs :
  strconv.ParseInt "+05" = strconv.NumOk 5
  ∧ strconv.ParseInt "-7" = strconv.NumOk (-7).
Proof. split; reflexivity. Qed.

Example ParseInt_syntax :
  strconv.ParseInt "" = strconv.ErrSyntax
  ∧ strconv.ParseInt "-" = strconv.ErrSyntax
  ∧ strconv.ParseInt "abc" = strconv.ErrSyntax
  ∧ strconv.ParseInt "1_000" = strconv.ErrSyntax
  ∧ strconv.ParseInt " 5" = strconv.ErrSyntax.
Proof. repeat split; reflexivity. Qed.

Example ParseInt_range :
  strconv.ParseInt "9223372036854775807" = strconv.NumOk (2 ^ 63 - 1)
  ∧ strconv.ParseInt "9223372036854775808" = strconv.ErrRange
  ∧ strconv.ParseInt "-9223372036854775808" = strconv.NumOk (- 2 ^ 63)
  ∧ strconv.ParseInt "-9223372036854775809" = strconv.ErrRange
  ∧ strconv.ParseInt "99999999999999999999999" = strconv.ErrRange.
Proof. repeat split; vm_compute; reflexivity. Qed.

Example FormatInt_decimal :
  strconv.FormatInt 0 = "0" ∧ strconv.FormatInt 10 = "10"
  ∧ strconv.FormatInt (-12) = "-12".
Proof. repeat split; reflexivity. Qed.

(** ** The field registry *)

Arguments criteriaMap : simpl never.

Lemma assocLookup_Some t f v :
  assocLookup t f = Some v → (f, v) ∈ t.
Proof.
  induction t as [|[k w] t IH]; simpl; [done|].
  destruct (String.eqb_spec k f) as [->|Hne].
  - intros [= ->]. left.
  - intros H. right. auto.
Qed.

Lemma assocLookup_None t f :
  assocLookup t f = None → f ∉ map fst t.
Proof.
  induction t as [|[k w] t IH]; simpl.
  - intros _ H. inversion H.
  - destruct (String.eqb_spec k f) as [->|Hne]; [done|].
    intros H Hin. apply elem_of_cons in Hin as [->|Hin]; [done|].
    by apply IH.
Qed.

Lemma assocLookup_elem t f :
  f ∈ map fst t → is_Some (assocLookup t f).
Proof.
  intros Hin. destruct (assocLookup t f) eqn:E; [eauto|].
  by apply assocLookup_None in E.
Qed.

Lemma criteriaTable_values :
  Forall (λ e, e.2 = eqOnly ∨ e.2 = allSix) criteriaTable.
Proof.
  unfold criteriaTable.
  repeat first [apply Forall_nil_2 | apply Forall_cons_2; [simpl; auto|]].
Qed.

Lemma criteriaMap_cases f :
  criteriaMap f = [] ∨ criteriaMap f = eqOnly ∨ criteriaMap f = allSix.
Proof.
  unfold criteriaMap. destruct (assocLookup criteriaTable f) as [v|] eqn:E; [|auto].
  apply assocLookup_Some in E.
  pose proof criteriaTable_values as HF.
  rewrite Forall_forall in HF. specialize (HF _ E). simpl in HF. tauto.
Qed.

Lemma criteriaMap_unregistered f :
  f ∉ criteriaFields → criteriaMap f = [].
Proof.
  intros Hf. unfold criteriaMap.
  destruct (assocLookup criteriaTable f) as [v|] eqn:E; [|done].
  apply assocLookup_Some in E. exfalso. apply Hf.
  unfold criteriaFields. apply list_elem_of_fmap. by exists (f, v).
Qed.

Lemma criteriaMap_registered f :
  f ∈ criteriaFields → criteriaMap f = eqOnly ∨ criteriaMap f = allSix.
Proof.
  intros Hf. unfold criteriaMap.
  destruct (assocLookup_elem criteriaTable f Hf) as [v E]. rewrite E.
  apply assocLookup_Some in E.
  pose proof criteriaTable_values as HF.
  rewrite Forall_forall in HF. by specialize (HF _ E).
Qed.

Lemma containsString_elem l s :
  containsString l s = true ↔ s ∈ l.
Proof.
  induction l as [|x l IH]; simpl.
  - split; [done|]. intros H. inversion H.
  - destruct (String.eqb_spec x s) as [->|Hne].
    + split; [left|done].
    + rewrite IH. split; [by right|].
      intros H. apply elem_of_cons in H as [->|H]; done.
Qed.

Lemma allowed_allSix f c :
  containsString (criteriaMap f) c = true → c ∈ allSix.
Proof.
  rewrite containsString_elem.
  destruct (criteriaMap_cases f) as [-> | [-> | ->]]; [|unfold eqOnly, allSix|done].
  - intros H. inversion H.
  - intros H. apply elem_of_cons in H as [->|H]; [left|].
    apply elem_of_cons in H as [->|H]; [right; left|]. inversion H.
Qed.

Lemma criteriaFields_check :
  forallb (λ f, bool_decide
     (criteriaMap f = if String.eqb f "updatedAt" then allSix else eqOnly))
    criteriaFields = true.
Proof. vm_compute. reflexivity. Qed.

(** C8: the registry has pairwise distinct field names; it maps updatedAt
    to the six conditions and every other registered field to exactly
    equals and not_equals. *)
Theorem criteriaMap_registry (f : string) :
  f ∈ criteriaFields →
  NoDup criteriaFields
  ∧ "updatedAt" ∈ criteriaFields
  ∧ criteriaMap f =
      if String.eqb f "updatedAt"
      then ["equals"; "not_equals"; "greater_than"; "greater_than_or_equal";
            "less_than"; "less_than_or_equal"]
      else ["equals"; "not_equals"].
Proof.
  intros Hf. split; [|split].
  - apply (bool_decide_unpack (NoDup criteriaFields)). vm_compute. exact I.
  - apply (bool_decide_unpack ("updatedAt" ∈ criteriaFields)). vm_compute. exact I.
  - pose proof criteriaFields_check as H.
    rewrite forallb_forall in H. apply list_elem_of_In in Hf.
    specialize (H _ Hf). by apply bool_decide_eq_true in H.
Qed.

Lemma criteriaMap_registry_witness :
  "updatedAt" ∈ criteriaFields
  ∧ criteriaMap "updatedAt" =
      ["equals"; "not_equals"; "greater_than"; "greater_than_or_equal";
       "less_than"; "less_than_or_equal"].
Proof.
  assert (H : "updatedAt" ∈ criteriaFields)
    by (apply (bool_decide_unpack ("updatedAt" ∈ criteriaFields));
        vm_compute; exact I).
  split; [exact H|].
  exact (proj2 (proj2 (criteriaMap_registry "updatedAt" H))).
Defined.

(** ** The serializer, step by step *)

Lemma serializeStep_rejected (m : gmap string Condition) c :
  conditionAllowedForCriterion c = false →
  serializeStep m c = Err (UnsupportedCondition (criteriaMap (field c))).
Proof. intros H. unfold serializeStep. by rewrite H. Qed.

Lemma serializeStep_accepted (m : gmap string Condition) c :
  conditionAllowedForCriterion c = true →
  StepShape m c (serializeStep m c).
Proof.
  intros H. pose proof (allowed_allSix _ _ H) as Hsix.
  unfold serializeStep. rewrite H. cbn [negb].
  unfold allSix in Hsix.
  repeat (apply elem_of_cons in Hsix as [Hc|Hsix];
          [rewrite Hc; cbn; by constructor|]).
  inversion Hsix.
Qed.

Lemma setScalar_Ok (m : gmap string Condition) c fresh update m' :
  setScalar m c fresh update = Ok m' →
  ∃ v n, values c = [v] ∧ strconv.ParseInt v = strconv.NumOk n
    ∧ m' = <[field c := match m !! field c with
                        | None => fresh n
                        | Some r => update n r
                        end]> m.
Proof.
  unfold setScalar, conditionValueToInt.
  destruct (values c) as [|v [|w vs]]; [done| |done].
  destruct (strconv.ParseInt v) as [n| |] eqn:E; [|done|done].
  intros H. exists v, n. split; [done|]. split; [done|].
  destruct (m !! field c); by inversion H.
Qed.

Lemma setScalar_parsed (m : gmap string Condition) c fresh update n :
  conditionValueToInt (values c) = inr n →
  setScalar m c fresh update
  = Ok (<[field c := match m !! field c with
                     | None => fresh n
                     | Some r => update n r
                     end]> m).
Proof.
  intros H. unfold setScalar. rewrite H. by destruct (m !! field c).
Qed.

Lemma serializeFrom_app (m : gmap string Condition) l1 l2 :
  serializeFrom m (l1 ++ l2) =
    match serializeFrom m l1 with
    | Ok m1 => serializeFrom m1 l2
    | Err e => Err e
    | Panic => Panic
    end.
Proof.
  revert m. induction l1 as [|c l1 IH]; intros m; simpl; [done|].
  destruct (serializeStep m c); auto.
Qed.

Lemma serializeFrom_Ok_allowed (m : gmap string Condition) l m' :
  serializeFrom m l = Ok m' →
  Forall (λ c, conditionAllowedForCriterion c = true) l.
Proof.
  revert m. induction l as [|c l IH]; intros m; simpl; [by constructor|].
  destruct (conditionAllowedForCriterion c) eqn:Ha.
  - destruct (serializeStep m c) as [m1| |]; [|done|done].
    intros H. constructor; eauto.
  - by rewrite serializeStep_rejected.
Qed.

Lemma serializeStep_dom (m : gmap string Condition) c m' :
  serializeStep m c = Ok m' → dom m' = {[field c]} ∪ dom m.
Proof.
  destruct (conditionAllowedForCriterion c) eqn:Ha.
  - intros H. pose proof (serializeStep_accepted m c Ha) as Hs.
    rewrite H in Hs.
    inversion Hs as [Hc Heq|Hc Heq|Hc Heq|Hc Heq|Hc Heq|Hc Heq];
      try (by rewrite dom_insert_L);
      apply setScalar_Ok in Heq as (v & n & _ & _ & ->);
      by rewrite dom_insert_L.
  - by rewrite serializeStep_rejected.
Qed.

Lemma serializeFrom_dom (m : gmap string Condition) l m' :
  serializeFrom m l = Ok m' →
  dom m' = list_to_set (map field l) ∪ dom m.
Proof.
  revert m. induction l as [|c l IH]; intros m; simpl.
  - intros [= ->]. by rewrite union_empty_l_L.
  - destruct (serializeStep m c) as [m1| |] eqn:Hs; [|done|done].
    intros H. apply IH in H. apply serializeStep_dom in Hs.
    rewrite H, Hs, (assoc_L (∪)).
    by rewrite (comm_L (∪) _ {[field c]}).
Qed.

Lemma serialize_lookup_field (l : list Criterion)
    (m : gmap string Condition) (f : string) :
  serializeFindingCriteria l = Ok m → is_Some (m !! f) →
  ∃ c, c ∈ l ∧ field c = f.
Proof.
  intros H Hf. apply serializeFrom_dom in H.
  apply elem_of_dom in Hf. rewrite H, elem_of_union, dom_empty_L in Hf.
  destruct Hf as [Hf|Hf]; [|by apply not_elem_of_empty in Hf].
  apply elem_of_list_to_set in Hf.
  change (map field l) with (field <$> l) in Hf.
  apply list_elem_of_fmap in Hf as (c & -> & Hc). by exists c.
Qed.

(** C7: when Serialize succeeds, the fields of the resulting mapping are
    exactly the field names of the input criteria. *)
Theorem serialize_domain (l : list Criterion) (m : gmap string Condition) :
  serializeFindingCriteria l = Ok m →
  dom m = list_to_set (map field l)
  ∧ ∀ f, is_Some (m !! f) ↔ ∃ c, c ∈ l ∧ field c = f.
Proof.
  intros H. apply serializeFrom_dom in H.
  rewrite dom_empty_L, (right_id_L ∅ (∪)) in H.
  split; [done|]. intros f.
  rewrite <- elem_of_dom, H, elem_of_list_to_set.
  change (map field l) with (field <$> l). rewrite list_elem_of_fmap.
  split; intros (c & ? & ?); exists c; done.
Qed.

Lemma serialize_domain_witness :
  let l := [mkCriterion "id" "equals" ["a"];
            mkCriterion "updatedAt" "less_than" ["7"]] in
  let m : gmap string Condition :=
    <["updatedAt" := mkCondition [] [] None None (Some 7) None]>
      (<["id" := mkCondition ["a"] [] None None None None]> ∅) in
  serializeFindingCriteria l = Ok m ∧ dom m = list_to_set (map field l).
Proof.
  intros l m.
  assert (H : serializeFindingCriteria l = Ok m) by (vm_compute; reflexivity).
  split; [exact H|]. exact (proj1 (serialize_domain l m H)).
Defined.

(** ** The flattener *)

Lemma elem_of_emitStrings f name vs c :
  c ∈ emitStrings f name vs ↔ vs ≠ [] ∧ c = mkCriterion f name vs.
Proof.
  unfold emitStrings, flattenStringCondition. destruct vs as [|v vs].
  - rewrite elem_of_nil. naive_solver.
  - rewrite list_elem_of_singleton. naive_solver.
Qed.

Lemma elem_of_emitInt f name o c :
  c ∈ emitInt f name o
  ↔ ∃ n, o = Some n ∧ c = mkCriterion f name [strconv.FormatInt n].
Proof.
  unfold emitInt, flattenIntCondition. destruct o as [n|].
  - rewrite list_elem_of_singleton. naive_solver.
  - rewrite elem_of_nil. naive_solver.
Qed.

Lemma elem_of_flattenConditions f r c :
  c ∈ flattenConditions f r ↔
    (Equals r ≠ [] ∧ c = mkCriterion f "equals" (Equals r))
    ∨ (NotEquals r ≠ [] ∧ c = mkCriterion f "not_equals" (NotEquals r))
    ∨ (∃ n, GreaterThan r = Some n
            ∧ c = mkCriterion f "greater_than" [strconv.FormatInt n])
    ∨ (∃ n, GreaterThanOrEqual r = Some n
            ∧ c = mkCriterion f "greater_than_or_equal" [strconv.FormatInt n])
    ∨ (∃ n, LessThan r = Some n
            ∧ c = mkCriterion f "less_than" [strconv.FormatInt n])
    ∨ (∃ n, LessThanOrEqual r = Some n
            ∧ c = mkCriterion f "less_than_or_equal" [strconv.FormatInt n]).
Proof.
  unfold flattenConditions.
  by rewrite !elem_of_app, !elem_of_emitStrings, !elem_of_emitInt.
Qed.

Lemma flattenConditions_field f r c :
  c ∈ flattenConditions f r → field c = f.
Proof.
  rewrite elem_of_flattenConditions.
  intros [[_ ->]|[[_ ->]|[(n & _ & ->)|[(n & _ & ->)|[(n & _ & ->)|(n & _ & ->)]]]]];
    reflexivity.
Qed.

Lemma flattenEntries_app es1 es2 :
  flattenEntries (es1 ++ es2) = flattenEntries es1 ++ flattenEntries es2.
Proof.
  induction es1 as [|[f r] es1 IH]; simpl; [done|].
  by rewrite IH, (assoc_L (++)).
Qed.

Lemma elem_of_flattenEntries es c :
  c ∈ flattenEntries es ↔ ∃ r, (field c, r) ∈ es ∧ c ∈ flattenConditions (field c) r.
Proof.
  induction es as [|[f r] es IH]; simpl.
  - split; [intros H; inversion H|]. intros (r & H & _). inversion H.
  - rewrite elem_of_app, IH. split.
    + intros [H|(r' & H1 & H2)].
      * pose proof (flattenConditions_field _ _ _ H) as <-.
        exists r. split; [left|done].
      * exists r'. split; [by right|done].
    + intros (r' & H1 & H2). apply elem_of_cons in H1 as [[= <- <-]|H1]; [by left|].
      right. by exists r'.
Qed.

Lemma flattenEntries_singleton_order (m : gmap string Condition) f r order :
  m = {[f := r]} → iterationOrder m order →
  flattenEntries order = flattenConditions f r.
Proof.
  intros -> Hord. unfold iterationOrder in Hord.
  rewrite map_to_list_singleton in Hord.
  apply Permutation_singleton_r in Hord as ->. simpl. by rewrite app_nil_r.
Qed.

Lemma iterationOrder_map_to_list (m : gmap string Condition) :
  iterationOrder m (map_to_list m).
Proof. unfold iterationOrder. reflexivity. Qed.

Lemma iterationOrder_lookup (m : gmap string Condition) order f r :
  iterationOrder m order → (f, r) ∈ order ↔ m !! f = Some r.
Proof.
  unfold iterationOrder. intros ->. apply elem_of_map_to_list.
Qed.

Lemma iterationOrder_NoDup (m : gmap string Condition) order :
  iterationOrder m order → NoDup order.*1.
Proof.
  unfold iterationOrder. intros ->. apply NoDup_fst_map_to_list.
Qed.

(** ** Single criteria and pairs *)

Lemma serializeStep_equals (m : gmap string Condition) f vs :
  conditionAllowedForCriterion (mkCriterion f "equals" vs) = true →
  serializeStep m (mkCriterion f "equals" vs)
  = Ok (<[f := mkCondition vs [] None None None None]> m).
Proof. intros H. unfold serializeStep. by rewrite H. Qed.

Lemma serializeStep_not_equals (m : gmap string Condition) f vs :
  conditionAllowedForCriterion (mkCriterion f "not_equals" vs) = true →
  serializeStep m (mkCriterion f "not_equals" vs)
  = Ok (<[f := mkCondition [] vs None None None None]> m).
Proof. intros H. unfold serializeStep. by rewrite H. Qed.

Lemma serializeStep_greater_than (m : gmap string Condition) f vs :
  conditionAllowedForCriterion (mkCriterion f "greater_than" vs) = true →
  serializeStep m (mkCriterion f "greater_than" vs)
  = setScalar m (mkCriterion f "greater_than" vs)
      (λ v, mkCondition [] [] (Some v) None None None)
      (λ v r, mkCondition (Equals r) (NotEquals r) (Some v)
                (GreaterThanOrEqual r) (LessThan r) (LessThanOrEqual r)).
Proof. intros H. unfold serializeStep. by rewrite H. Qed.

Lemma serializeStep_less_than (m : gmap string Condition) f vs :
  conditionAllowedForCriterion (mkCriterion f "less_than" vs) = true →
  serializeStep m (mkCriterion f "less_than" vs)
  = setScalar m (mkCriterion f "less_than" vs)
      (λ v, mkCondition [] [] None None (Some v) None)
      (λ v r, mkCondition (Equals r) (NotEquals r) (GreaterThan r)
                (GreaterThanOrEqual r) (Some v) (LessThanOrEqual r)).
Proof. intros H. unfold serializeStep. by rewrite H. Qed.

(** C5: for a field that allows greater_than and less_than, serializing
    the bounds greater_than 5 and less_than 10 succeeds with one condition
    record for the field that carries both bounds, and flattening it, in
    any iteration order, gives exactly the two criteria, greater_than
    first. *)
Theorem ordering_bounds_combine (f : string) :
  conditionAllowedForCriterion (mkCriterion f "greater_than" ["5"]) = true →
  conditionAllowedForCriterion (mkCriterion f "less_than" ["10"]) = true →
  ∃ m : gmap string Condition,
    serializeFindingCriteria
      [mkCriterion f "greater_than" ["5"]; mkCriterion f "less_than" ["10"]]
    = Ok m
    ∧ m = {[f := mkCondition [] [] (Some 5) None (Some 10) None]}
    ∧ flattenFindingCriteria m
      = [mkCriterion f "greater_than" ["5"]; mkCriterion f "less_than" ["10"]]
    ∧ ∀ order, iterationOrder m order →
        flattenEntries order
        = [mkCriterion f "greater_than" ["5"]; mkCriterion f "less_than" ["10"]].
Proof.
  intros Hgt Hlt.
  exists {[f := mkCondition [] [] (Some 5) None (Some 10) None]}.
  assert (Hall : ∀ order,
    iterationOrder
      ({[f := mkCondition [] [] (Some 5) None (Some 10) None]}
         : gmap string Condition) order →
    flattenEntries order
    = [mkCriterion f "greater_than" ["5"]; mkCriterion f "less_than" ["10"]]).
  { intros order Hord.
    by rewrite (flattenEntries_singleton_order _ f _ order eq_refl Hord). }
  split; [|split; [done|split; [|done]]].
  - unfold serializeFindingCriteria, serializeFrom.
    rewrite (serializeStep_greater_than _ _ _ Hgt).
    rewrite (setScalar_parsed _ (mkCriterion f "greater_than" ["5"]) _ _ 5 eq_refl).
    rewrite (serializeStep_less_than _ _ _ Hlt).
    rewrite (setScalar_parsed _ (mkCriterion f "less_than" ["10"]) _ _ 10 eq_refl).
    cbn [field]. rewrite lookup_empty, lookup_insert_eq.
    cbn [Equals NotEquals GreaterThan GreaterThanOrEqual LessThanOrEqual].
    by rewrite insert_insert_eq, insert_empty.
  - apply Hall, iterationOrder_map_to_list.
Qed.

Lemma ordering_bounds_combine_witness :
  ∃ m : gmap string Condition,
    serializeFindingCriteria
      [mkCriterion "updatedAt" "greater_than" ["5"];
       mkCriterion "updatedAt" "less_than" ["10"]] = Ok m
    ∧ flattenFindingCriteria m
      = [mkCriterion "updatedAt" "greater_than" ["5"];
         mkCriterion "updatedAt" "less_than" ["10"]].
Proof.
  destruct (ordering_bounds_combine "updatedAt" eq_refl eq_refl)
    as (m & H1 & _ & H2 & _).
  exists m. split; assumption.
Defined.

(** C9: a criterion that Flatten emits with condition equals (not_equals)
    comes from a record of its field whose equals (not_equals) slice is
    not empty, and carries that slice; so an allowed criterion
    [{f, equals, []}] is accepted by Serialize, which stores a record with
    no attribute, and Flatten of the result emits nothing. *)
Theorem flatten_skips_empty_sets (f : string) :
  conditionAllowedForCriterion (mkCriterion f "equals" []) = true →
  (∀ (m : gmap string Condition) order c,
     iterationOrder m order → c ∈ flattenEntries order →
     ∃ r, m !! field c = Some r
       ∧ (condition c = "equals" → Equals r ≠ [] ∧ values c = Equals r)
       ∧ (condition c = "not_equals" →
            NotEquals r ≠ [] ∧ values c = NotEquals r))
  ∧ serializeFindingCriteria [mkCriterion f "equals" []]
    = Ok {[f := mkCondition [] [] None None None None]}
  ∧ flattenFindingCriteria {[f := mkCondition [] [] None None None None]} = []
  ∧ ∀ order,
      iterationOrder {[f := mkCondition [] [] None None None None]} order →
      flattenEntries order = [].
Proof.
  intros Ha.
  assert (Hall : ∀ order,
    iterationOrder
      ({[f := mkCondition [] [] None None None None]} : gmap string Condition)
      order →
    flattenEntries order = []).
  { intros order Hord.
    by rewrite (flattenEntries_singleton_order _ f _ order eq_refl Hord). }
  split; [|split; [|split; [|done]]].
  - intros m order c Hord Hc.
    apply elem_of_flattenEntries in Hc as (r & Hin & Hc).
    exists r. split; [by apply (iterationOrder_lookup m order)|].
    apply elem_of_flattenConditions in Hc.
    destruct Hc as [[? ->]|[[? ->]|[(n & _ & ->)|[(n & _ & ->)|[(n & _ & ->)|(n & _ & ->)]]]]];
      simpl; split; intros [=]; done.
  - unfold serializeFindingCriteria, serializeFrom.
    rewrite (serializeStep_equals _ _ _ Ha). by rewrite insert_empty.
  - apply Hall, iterationOrder_map_to_list.
Qed.

Lemma flatten_skips_empty_sets_witness :
  serializeFindingCriteria [mkCriterion "id" "equals" []]
  = Ok {["id" := mkCondition [] [] None None None None]}
  ∧ flattenFindingCriteria {["id" := mkCondition [] [] None None None None]} = [].
Proof.
  destruct (flatten_skips_empty_sets "id" eq_refl) as (_ & H1 & H2 & _).
  split; assumption.
Defined.

(** ** Rejected criteria *)

Lemma serializeFrom_not_allowed (m : gmap string Condition) l c :
  c ∈ l → conditionAllowedForCriterion c = false →
  ∀ m', serializeFrom m l ≠ Ok m'.
Proof.
  intros Hin Hc m' H. apply serializeFrom_Ok_allowed in H.
  rewrite Forall_forall in H. specialize (H c Hin). congruence.
Qed.

Lemma serialize_rejects_after_accepted pre c post (m : gmap string Condition) :
  serializeFindingCriteria pre = Ok m →
  conditionAllowedForCriterion c = false →
  serializeFindingCriteria (pre ++ c :: post)
  = Err (UnsupportedCondition (criteriaMap (field c))).
Proof.
  intros Hpre Hc. unfold serializeFindingCriteria in *.
  rewrite serializeFrom_app, Hpre. simpl.
  by rewrite serializeStep_rejected.
Qed.

(** C10: for a field name that is not in the registry the lookup of the
    allowed conditions is empty; the serializer rejects a criterion that
    names it, whatever its condition and values and whatever was
    accumulated before, with the unsupported-condition error that lists
    no condition; and no successful result holds a record for it. *)
Theorem unregistered_field_rejected (f : string) :
  f ∉ criteriaFields →
  criteriaMap f = []
  ∧ (∀ cond vs (m : gmap string Condition),
       serializeStep m (mkCriterion f cond vs)
       = Err (UnsupportedCondition []))
  ∧ (∀ cond vs,
       serializeFindingCriteria [mkCriterion f cond vs]
       = Err (UnsupportedCondition []))
  ∧ (∀ cond vs pre post (m : gmap string Condition),
       serializeFindingCriteria pre = Ok m →
       serializeFindingCriteria (pre ++ mkCriterion f cond vs :: post)
       = Err (UnsupportedCondition []))
  ∧ (∀ l (m : gmap string Condition),
       serializeFindingCriteria l = Ok m → m !! f = None).
Proof.
  intros Hf. pose proof (criteriaMap_unregistered f Hf) as Hmap.
  assert (Hrej : ∀ cond vs,
    conditionAllowedForCriterion (mkCriterion f cond vs) = false).
  { intros cond vs. unfold conditionAllowedForCriterion. simpl.
    by rewrite Hmap. }
  split; [done|]. split; [|split; [|split]].
  - intros cond vs m. rewrite serializeStep_rejected by apply Hrej.
    simpl. by rewrite Hmap.
  - intros cond vs. unfold serializeFindingCriteria. simpl.
    rewrite serializeStep_rejected by apply Hrej. simpl. by rewrite Hmap.
  - intros cond vs pre post m Hpre.
    rewrite (serialize_rejects_after_accepted pre _ post m Hpre (Hrej cond vs)).
    simpl. by rewrite Hmap.
  - intros l m H. destruct (m !! f) as [r|] eqn:E; [exfalso|done].
    destruct (serialize_lookup_field l m f H) as (c & Hin & Hc); [by eexists|].
    destruct c as [f' cond vs]. simpl in Hc. subst f'.
    by apply (serializeFrom_not_allowed ∅ l _ Hin (Hrej cond vs) m).
Qed.

Lemma unregistered_field_rejected_witness :
  criteriaMap "resource.bogus" = []
  ∧ serializeFindingCriteria [mkCriterion "resource.bogus" "equals" ["x"]]
    = Err (UnsupportedCondition []).
Proof.
  assert (H : "resource.bogus" ∉ criteriaFields).
  { apply (bool_decide_unpack ("resource.bogus" ∉ criteriaFields)).
    vm_compute. exact I. }
  destruct (unregistered_field_rejected "resource.bogus" H)
    as (H1 & _ & H2 & _).
  split; [exact H1|apply H2].
Defined.




(** ** Ordering conditions *)

(** The outcome of one accepted ordering criterion, by its values. *)
Lemma ordering_step_outcome (m : gmap string Condition) c :
  conditionAllowedForCriterion c = true →
  isOrdering (condition c) = true →
  match values c with
  | [] => serializeStep m c = Panic
  | [v] =>
      match strconv.ParseInt v with
      | strconv.NumOk n => ∃ m', serializeStep m c = Ok m'
      | _ => serializeStep m c = Err (NotAnInteger v)
      end
  | v :: _ :: _ => serializeStep m c = Err (NotAnInteger v)
  end.
Proof.
  intros Ha Ho. pose proof (serializeStep_accepted m c Ha) as Hs.
  inversion Hs as [Hc Heq|Hc Heq|Hc Heq|Hc Heq|Hc Heq|Hc Heq];
    rewrite Hc in Ho; try discriminate Ho; clear Heq Hs;
    unfold setScalar, conditionValueToInt;
    destruct (values c) as [|v [|w vs]]; try reflexivity;
    destruct (strconv.ParseInt v); try reflexivity;
    destruct (m !! field c); eauto.
Qed.

(** C4 (defect): an ordering criterion without any value makes
    [conditionValueToInt] return its exactly-one-value error, and the
    serializer then indexes [values[0]] to build its message: the call
    panics instead of returning a validation error. *)
Theorem ordering_condition_without_value_panics :
  conditionValueToInt [] = inl (ExactlyOneValue [])
  ∧ serializeFindingCriteria [mkCriterion "updatedAt" "greater_than" []] = Panic
  ∧ serializeFindingCriteria
      [mkCriterion "updatedAt" "greater_than_or_equal" []] = Panic
  ∧ serializeFindingCriteria [mkCriterion "updatedAt" "less_than" []] = Panic
  ∧ serializeFindingCriteria
      [mkCriterion "updatedAt" "less_than_or_equal" []] = Panic.
Proof. repeat split; vm_compute; reflexivity. Qed.

(** ** Whole-record replacement by equals and not_equals *)

(** C2 (defect): the equals and not_equals cases store a new record for
    the field, so the attributes set by earlier criteria of the same field
    are lost: a greater_than bound followed by equals leaves only equals,
    and equals and not_equals on one field leave only the later one. *)
Theorem equals_replaces_record :
  serializeFindingCriteria
    [mkCriterion "updatedAt" "greater_than" ["5"];
     mkCriterion "updatedAt" "equals" ["1"]]
  = Ok {["updatedAt" := mkCondition ["1"] [] None None None None]}
  ∧ serializeFindingCriteria
      [mkCriterion "id" "equals" ["a"]; mkCriterion "id" "not_equals" ["b"]]
    = Ok {["id" := mkCondition [] ["b"] None None None None]}
  ∧ serializeFindingCriteria
      [mkCriterion "id" "not_equals" ["b"]; mkCriterion "id" "equals" ["a"]]
    = Ok {["id" := mkCondition ["a"] [] None None None None]}
  ∧ flattenFindingCriteria {["id" := mkCondition [] ["b"] None None None None]}
    = [mkCriterion "id" "not_equals" ["b"]].
Proof. repeat split; vm_compute; reflexivity. Qed.

(** ** The order of the emitted criteria *)






Lemma flattenConditions_conditions f r :
  map condition (flattenConditions f r)
  = List.filter (attributePresent r)
      ["equals"; "not_equals"; "greater_than"; "greater_than_or_equal";
       "less_than"; "less_than_or_equal"].
Proof.
  destruct r as [eq ne gt ge lt le]. unfold flattenConditions. simpl.
  destruct eq, ne, gt, ge, lt, le; reflexivity.
Qed.



(** ** Round trip *)

Lemma canonical_strings c :
  canonicalCriterion c = true → isOrdering (condition c) = false →
  values c ≠ [].
Proof.
  unfold canonicalCriterion. intros H Ho. rewrite Ho in H.
  by destruct (values c).
Qed.

Lemma canonical_int c v n :
  canonicalCriterion c = true → isOrdering (condition c) = true →
  values c = [v] → strconv.ParseInt v = strconv.NumOk n →
  strconv.FormatInt n = v.
Proof.
  unfold canonicalCriterion. intros H Ho Hv Hp.
  rewrite Ho, Hv, Hp in H. by apply String.eqb_eq.
Qed.

Arguments strconv.FormatInt : simpl never.

Ltac scalar_round_trip Heq Hcan Hfresh pick :=
  let v := fresh "v" in
  let n := fresh "n" in
  let Hv := fresh "Hv" in
  let Hp := fresh "Hp" in
  let E := fresh "E" in
  let G := fresh "G" in
  let r := fresh "r" in
  apply setScalar_Ok in Heq as (v & n & Hv & Hp & ->);
  cbn [field values condition] in *;
  pose proof (canonical_int _ v n Hcan eq_refl Hv Hp) as <-;
  cbn [values] in Hv; subst;
  unfold emittedFor in *;
  match goal with
  | |- context [?m !! ?f] => destruct (m !! f) as [r|] eqn:E
  end;
  [ assert (G : pick r = None);
    [ destruct (pick r) as [k|] eqn:G; [exfalso|done];
      eapply (Hfresh _);
      [apply elem_of_flattenConditions; eauto 10|done]
    | eexists; split; [done|]; intros x;
      unfold flattenConditions;
      cbn [Equals NotEquals GreaterThan GreaterThanOrEqual LessThan
           LessThanOrEqual];
      rewrite G; cbn [emitInt];
      rewrite !elem_of_app, list_elem_of_singleton, elem_of_nil;
      unfold flattenIntCondition; tauto ]
  | eexists; split; [done|]; intros x;
    unfold flattenConditions; cbn;
    rewrite list_elem_of_singleton, elem_of_nil;
    unfold flattenIntCondition; tauto ].

Lemma step_record (m : gmap string Condition) c m1 :
  serializeStep m c = Ok m1 →
  canonicalCriterion c = true →
  (isOrdering (condition c) = false → m !! field c = None) →
  (∀ x, x ∈ emittedFor m (field c) → condition x ≠ condition c) →
  ∃ R, m1 = <[field c := R]> m
    ∧ ∀ x, x ∈ flattenConditions (field c) R
           ↔ x = c ∨ x ∈ emittedFor m (field c).
Proof.
  intros Hs Hcan Hrep Hfresh.
  destruct (conditionAllowedForCriterion c) eqn:Ha;
    [|by rewrite serializeStep_rejected in Hs].
  pose proof (serializeStep_accepted m c Ha) as Hshape. rewrite Hs in Hshape.
  clear Hs Ha. destruct c as [f cond vs]. cbn [field condition values] in *.
  inversion Hshape as [Hc Heq|Hc Heq|Hc Heq|Hc Heq|Hc Heq|Hc Heq];
    clear Hshape; cbn [field condition values] in *; subst cond.
  - pose proof (canonical_strings _ Hcan eq_refl) as Hne.
    cbn [values] in Hne. unfold emittedFor. rewrite (Hrep eq_refl).
    eexists; split; [done|]. intros x.
    unfold flattenConditions. cbn. rewrite app_nil_r.
    rewrite elem_of_emitStrings, elem_of_nil. tauto.
  - pose proof (canonical_strings _ Hcan eq_refl) as Hne.
    cbn [values] in Hne. unfold emittedFor. rewrite (Hrep eq_refl).
    eexists; split; [done|]. intros x.
    unfold flattenConditions. cbn. rewrite app_nil_r.
    rewrite elem_of_emitStrings, elem_of_nil. tauto.
  - scalar_round_trip Heq Hcan Hfresh GreaterThan.
  - scalar_round_trip Heq Hcan Hfresh GreaterThanOrEqual.
  - scalar_round_trip Heq Hcan Hfresh LessThan.
  - scalar_round_trip Heq Hcan Hfresh LessThanOrEqual.
Qed.

Lemma emitted_insert (m : gmap string Condition) c R x :
  (∀ y, y ∈ flattenConditions (field c) R
        ↔ y = c ∨ y ∈ emittedFor m (field c)) →
  emitted (<[field c := R]> m) x ↔ x = c ∨ emitted m x.
Proof.
  intros Hrec. unfold emitted. destruct (decide (field x = field c)) as [e|Hne].
  - rewrite e, lookup_insert_eq. split.
    + intros (r & [= <-] & Hx). apply Hrec in Hx as [->|Hx]; [by left|right].
      unfold emittedFor in Hx.
      destruct (m !! field c) as [r|]; [by exists r|inversion Hx].
    + intros [->|(r & Hr & Hx)]; (exists R; split; [done|]); apply Hrec.
      * by left.
      * right. unfold emittedFor. by rewrite Hr.
  - rewrite lookup_insert_ne by done. split; [by right|].
    intros [->|H]; done.
Qed.

Lemma emitted_flattenEntries (m : gmap string Condition) order x :
  iterationOrder m order → x ∈ flattenEntries order ↔ emitted m x.
Proof.
  intros Hord. rewrite elem_of_flattenEntries. unfold emitted.
  split; intros (r & H1 & H2); exists r; split; try done;
    by apply (iterationOrder_lookup m order).
Qed.

Lemma NoDup_List_filter {A} (p : A → bool) (l : list A) :
  NoDup l → NoDup (List.filter p l).
Proof.
  induction 1 as [|x l Hx Hl IH]; simpl; [constructor|].
  destruct (p x); [|done]. constructor; [|done].
  intros Hin. apply Hx. apply list_elem_of_In in Hin.
  apply List.filter_In in Hin as [Hin _]. by apply list_elem_of_In.
Qed.

Lemma NoDup_flattenConditions f r : NoDup (flattenConditions f r).
Proof.
  apply (NoDup_fmap_1 condition).
  change (condition <$> flattenConditions f r)
    with (map condition (flattenConditions f r)).
  rewrite flattenConditions_conditions. apply NoDup_List_filter.
  apply (bool_decide_unpack _). vm_compute. exact I.
Qed.

Lemma NoDup_flattenEntries es :
  NoDup es.*1 → NoDup (flattenEntries es).
Proof.
  induction es as [|[k r] es IH]; simpl; intros Hnd; [constructor|].
  apply NoDup_cons in Hnd as [Hk Hnd]. apply NoDup_app.
  split; [apply NoDup_flattenConditions|]. split; [|by apply IH].
  intros x Hx Hx'. apply flattenConditions_field in Hx.
  apply elem_of_flattenEntries in Hx' as (r' & Hin & _).
  apply Hk. rewrite <- Hx. apply list_elem_of_fmap. by exists (field x, r').
Qed.

Lemma serializeFrom_round_trip rest :
  ∀ (m : gmap string Condition) seen done m',
    serializeFrom m rest = Ok m' →
    (∀ x, x ∈ done ↔ emitted m x) →
    (∀ f, containsString seen f = true ↔ is_Some (m !! f)) →
    NoDup (criterionKey <$> (done ++ rest)) →
    keepsRecords seen rest = true →
    forallb canonicalCriterion rest = true →
    ∀ x, x ∈ done ++ rest ↔ emitted m' x.
Proof.
  induction rest as [|c rest IH]; intros m seen done m' Hs Hinv Hseen Hnd Hk Hcan.
  - simpl in Hs. injection Hs as <-. by rewrite app_nil_r.
  - simpl in Hs. destruct (serializeStep m c) as [m1| |] eqn:Hstep; [|done|done].
    simpl in Hk, Hcan.
    apply andb_true_iff in Hk as [Hk1 Hk2].
    apply andb_true_iff in Hcan as [Hc1 Hc2].
    assert (Hfreshkey : criterionKey c ∉ criterionKey <$> done).
    { rewrite fmap_app, fmap_cons in Hnd. apply NoDup_app in Hnd as (_ & Hd & _).
      intros Hin. apply (Hd _ Hin). left. }
    destruct (step_record m c m1 Hstep Hc1) as (R & -> & Hrec).
    { intros Ho. rewrite Ho in Hk1. simpl in Hk1.
      apply negb_true_iff in Hk1.
      destruct (m !! field c) as [r|] eqn:E; [|done].
      assert (containsString seen (field c) = true) by (apply Hseen; eauto).
      congruence. }
    { intros x Hx Hcond. apply Hfreshkey.
      unfold emittedFor in Hx.
      destruct (m !! field c) as [r|] eqn:E; [|inversion Hx].
      pose proof (flattenConditions_field _ _ _ Hx) as Hf.
      apply list_elem_of_fmap. exists x. split.
      - unfold criterionKey. by rewrite Hf, Hcond.
      - apply Hinv. exists r. by rewrite Hf. }
    intros x. rewrite (cons_middle c done rest), (assoc_L (++)).
    apply (IH _ (field c :: seen) (done ++ [c]) m' Hs).
    + intros y. rewrite elem_of_app, list_elem_of_singleton.
      rewrite (emitted_insert m c R y Hrec), Hinv. tauto.
    + intros f. simpl. destruct (String.eqb_spec (field c) f) as [<-|Hne].
      * rewrite lookup_insert_eq. split; eauto.
      * by rewrite lookup_insert_ne.
    + by rewrite <- (assoc_L (++)).
    + done.
    + done.
Qed.

Lemma equivalentCriterion_refl a : equivalentCriterion a a.
Proof.
  unfold equivalentCriterion. split; [done|]. split; [done|].
  by destruct (isSetValued (condition a)).
Qed.

Lemma equivalentCriteria_Permutation l1 l2 :
  l2 ≡ₚ l1 → equivalentCriteria l1 l2.
Proof.
  intros Hp. split; intros x Hx; exists x; split;
    try apply equivalentCriterion_refl.
  - by rewrite Hp.
  - by rewrite <- Hp.
Qed.

(** C1, as amended: when Serialize accepts a list in which no two
    criteria share field and condition, no equals or not_equals criterion
    comes after another criterion of its field, every equals or
    not_equals criterion has at least one value and every ordering value
    is the decimal form that FormatInt prints, Flatten of the result, in
    any iteration order, is a rearrangement of the input criteria. *)
Theorem serialize_flatten_round_trip
    (l : list Criterion) (m : gmap string Condition) :
  serializeFindingCriteria l = Ok m →
  NoDup (criterionKey <$> l) →
  keepsRecords [] l = true →
  forallb canonicalCriterion l = true →
  ∀ order, iterationOrder m order →
    flattenEntries order ≡ₚ l ∧ equivalentCriteria l (flattenEntries order).
Proof.
  intros Hs Hnd Hk Hcan order Hord.
  assert (Hperm : flattenEntries order ≡ₚ l).
  { apply NoDup_Permutation.
    - apply NoDup_flattenEntries. by apply (iterationOrder_NoDup m).
    - by apply NoDup_fmap_1 in Hnd.
    - intros x. rewrite (emitted_flattenEntries m order x Hord). symmetry.
      apply (serializeFrom_round_trip l ∅ [] [] m Hs); try done.
      + intros y. split; [intros H; inversion H|].
        intros (r & H & _). by rewrite lookup_empty in H.
      + intros f. simpl. rewrite lookup_empty. split; [done|].
        by intros [? ?]. }
  split; [done|]. by apply equivalentCriteria_Permutation.
Qed.

Lemma serialize_flatten_round_trip_witness :
  let l := [mkCriterion "updatedAt" "equals" ["a"; "b"];
            mkCriterion "updatedAt" "greater_than" ["5"];
            mkCriterion "id" "not_equals" ["x"];
            mkCriterion "updatedAt" "less_than_or_equal" ["-7"]] in
  let m : gmap string Condition :=
    <["id" := mkCondition [] ["x"] None None None None]>
      (<["updatedAt" := mkCondition ["a"; "b"] [] (Some 5) None None (Some (-7))]> ∅) in
  serializeFindingCriteria l = Ok m ∧ flattenFindingCriteria m ≡ₚ l.
Proof.
  intros l m.
  assert (Hs : serializeFindingCriteria l = Ok m) by (vm_compute; reflexivity).
  assert (Hnd : NoDup (criterionKey <$> l)).
  { apply (bool_decide_unpack _). vm_compute. exact I. }
  split; [exact Hs|].
  exact (proj1 (serialize_flatten_round_trip l m Hs Hnd eq_refl eq_refl
                  (map_to_list m) (iterationOrder_map_to_list m))).
Defined.

(** C1 as stated fails: Serialize accepts an equals criterion without
    values, and Flatten of the result emits no criterion for it. *)
Lemma round_trip_counterexample :
  ¬ (∀ l (m : gmap string Condition),
       serializeFindingCriteria l = Ok m →
       equivalentCriteria l (flattenFindingCriteria m)).
Proof.
  intros H.
  destruct (H [mkCriterion "id" "equals" []]
              {["id" := mkCondition [] [] None None None None]})
    as [H1 _]; [vm_compute; reflexivity|].
  destruct (H1 (mkCriterion "id" "equals" [])) as (b & Hb & _); [left|].
  unfold flattenFindingCriteria in Hb. rewrite map_to_list_singleton in Hb.
  simpl in Hb. inversion Hb.
Qed.

(** ** Decimal strings and int64 *)

Lemma uintValue_ge d : ∀ acc, 0 <= acc → acc <= uintValue d acc.
Proof.
  induction d as [|d IH|d IH|d IH|d IH|d IH|d IH|d IH|d IH|d IH|d IH];
    intros acc Hacc; simpl; [lia|..];
    (etransitivity; [|apply IH; lia]); lia.
Qed.

Lemma parseUintLoop_digits d :
  ∀ acc, 0 <= acc → uintValue d acc <= strconv.maxUint64 →
    strconv.parseUintLoop (NilEmpty.string_of_uint d) acc
    = strconv.NumOk (uintValue d acc).
Proof.
  change strconv.maxUint64 with 18446744073709551615.
  induction d as [|d IH|d IH|d IH|d IH|d IH|d IH|d IH|d IH|d IH|d IH];
    intros acc Hacc Hle; [done|..];
    cbn [NilEmpty.string_of_uint uintValue strconv.parseUintLoop] in *;
    match goal with
    | |- context [strconv.digit ?c] =>
        change (strconv.digit c) with (Some (Z.of_N (N_of_ascii c) - 48));
        change (Z.of_N (N_of_ascii c) - 48) with
          ltac:(let v := eval vm_compute in (Z.of_N (N_of_ascii c) - 48) in exact v)
    end;
    change (strconv.maxUint64 / 10 + 1) with 1844674407370955162;
    change strconv.maxUint64 with 18446744073709551615;
    match type of Hle with
    | uintValue _ ?a <= _ =>
        pose proof (uintValue_ge d a ltac:(lia)) as Hge
    end;
    (destruct (Z.leb_spec 1844674407370955162 acc) as [Hc|Hc]; [lia|]);
    match goal with
    | |- context [18446744073709551615 <? ?x] =>
        destruct (Z.ltb_spec 18446744073709551615 x) as [Hm|Hm]; [lia|]
    end;
    rewrite <- IH by lia; f_equal; lia.
Qed.

Lemma uintValue_of_uint_acc d :
  ∀ acc, uintValue d (Z.pos acc) = Z.pos (Pos.of_uint_acc d acc).
Proof.
  induction d as [|d IH|d IH|d IH|d IH|d IH|d IH|d IH|d IH|d IH|d IH];
    intros acc; simpl; [done|..]; rewrite <- IH; f_equal; lia.
Qed.

Lemma uintValue_of_uint d : uintValue d 0 = Z.of_N (Pos.of_uint d).
Proof.
  induction d as [|d IH|d IH|d IH|d IH|d IH|d IH|d IH|d IH|d IH|d IH];
    simpl; [done|exact IH|..]; apply uintValue_of_uint_acc.
Qed.

Lemma uintValue_to_uint p : uintValue (Pos.to_uint p) 0 = Z.pos p.
Proof. by rewrite uintValue_of_uint, DecimalPos.Unsigned.of_to. Qed.

Lemma parseUintLoop_nonneg s :
  ∀ acc n, 0 <= acc → strconv.parseUintLoop s acc = strconv.NumOk n → 0 <= n.
Proof.
  induction s as [|c s IH]; intros acc n Hacc; simpl.
  - by intros [= <-].
  - unfold strconv.digit.
    destruct ((48 <=? Z.of_N (N_of_ascii c)) && (Z.of_N (N_of_ascii c) <=? 57))
      eqn:Hd; [|done].
    apply andb_true_iff in Hd as [Hd1 Hd2].
    apply Z.leb_le in Hd1. apply Z.leb_le in Hd2.
    destruct (_ <=? acc); [done|].
    destruct (_ <? _); [done|]. apply IH. lia.
Qed.

Lemma ParseUint_nonneg s n :
  strconv.ParseUint s = strconv.NumOk n → 0 <= n.
Proof.
  unfold strconv.ParseUint. destruct s; [done|].
  by apply parseUintLoop_nonneg.
Qed.

Lemma ParseInt_int64 s n :
  strconv.ParseInt s = strconv.NumOk n → int64 n.
Proof.
  unfold strconv.ParseInt, int64. destruct s as [|c rest]; [done|].
  change (2 ^ 63) with 9223372036854775808.
  destruct (strconv.ParseUint _) as [un| |] eqn:Hu; [|done|done].
  apply ParseUint_nonneg in Hu.
  destruct (Ascii.eqb c "-"); cbn [negb andb].
  - destruct (Z.ltb_spec 9223372036854775808 un); [done|].
    intros [= <-]. lia.
  - destruct (Z.leb_spec 9223372036854775808 un); [done|].
    intros [= <-]. lia.
Qed.

Lemma string_of_uint_head d :
  d ≠ Decimal.Nil →
  ∃ c rest, NilEmpty.string_of_uint d = String c rest
    ∧ Ascii.eqb c "-" = false ∧ Ascii.eqb c "+" = false.
Proof.
  destruct d; [done|..]; intros _; simpl; eauto.
Qed.

Lemma ParseUint_to_uint p :
  Z.pos p <= strconv.maxUint64 →
  strconv.ParseUint (NilEmpty.string_of_uint (Pos.to_uint p))
  = strconv.NumOk (Z.pos p).
Proof.
  intros Hp.
  destruct (string_of_uint_head (Pos.to_uint p)) as (c & rest & E & _);
    [apply DecimalPos.Unsigned.to_uint_nonnil|].
  unfold strconv.ParseUint. rewrite E, <- E.
  rewrite parseUintLoop_digits; rewrite ?uintValue_to_uint; done.
Qed.

Lemma NilZero_string_of_to_uint p :
  NilZero.string_of_uint (Pos.to_uint p)
  = NilEmpty.string_of_uint (Pos.to_uint p).
Proof.
  pose proof (DecimalPos.Unsigned.to_uint_nonnil p) as H.
  by destruct (Pos.to_uint p).
Qed.

Lemma ParseInt_FormatInt n :
  int64 n → strconv.ParseInt (strconv.FormatInt n) = strconv.NumOk n.
Proof.
  unfold int64. change (2 ^ 63) with 9223372036854775808. intros Hn.
  destruct n as [|p|p]; [reflexivity|..];
    unfold strconv.FormatInt; cbn [Z.to_int NilZero.string_of_int];
    rewrite NilZero_string_of_to_uint.
  - destruct (string_of_uint_head (Pos.to_uint p)) as (c & rest & E & Hm & Hp);
      [apply DecimalPos.Unsigned.to_uint_nonnil|].
    unfold strconv.ParseInt. rewrite E, Hm, Hp. cbn [orb negb andb].
    rewrite <- E, ParseUint_to_uint
      by (change strconv.maxUint64 with 18446744073709551615; lia).
    change (2 ^ 63) with 9223372036854775808.
    destruct (Z.leb_spec 9223372036854775808 (Z.pos p)); [lia|done].
  - unfold strconv.ParseInt.
    change (Ascii.eqb "-" "-") with true. change (Ascii.eqb "-" "+") with false.
    cbn [orb negb andb].
    rewrite ParseUint_to_uint
      by (change strconv.maxUint64 with 18446744073709551615; lia).
    change (2 ^ 63) with 9223372036854775808.
    destruct (Z.ltb_spec 9223372036854775808 (Z.pos p)); [lia|done].
Qed.

(** ** Conversions of condition values *)

(** X1: [conditionValueToInt] returns an integer exactly for a list of one
    value that parses, and the integer is an int64; for any other length
    it reports the values it was given, and for one value that does not
    parse it reports that value. *)
Theorem conditionValueToInt_outcome (vs : list string) :
  match conditionValueToInt vs with
  | inr n => ∃ v, vs = [v] ∧ strconv.ParseInt v = strconv.NumOk n ∧ int64 n
  | inl (ExactlyOneValue given) => given = vs ∧ length vs ≠ 1%nat
  | inl (ParsingFailed v) =>
      vs = [v] ∧ ∀ n, strconv.ParseInt v ≠ strconv.NumOk n
  | inl _ => False
  end.
Proof.
  unfold conditionValueToInt. destruct vs as [|v [|w vs]]; [done| |done].
  destruct (strconv.ParseInt v) as [n| |] eqn:E.
  - exists v. split; [done|]. split; [done|]. by apply (ParseInt_int64 v).
  - split; [done|]. intros n. congruence.
  - split; [done|]. intros n. congruence.
Qed.

(** X2: the value that [flattenIntCondition] writes for an int64 is read
    back by [conditionValueToInt] as the same integer. *)
Theorem flattenIntCondition_conditionValueToInt
    (f name : string) (n : Z) :
  int64 n →
  conditionValueToInt (values (flattenIntCondition f name n)) = inr n.
Proof.
  intros Hn. unfold flattenIntCondition, conditionValueToInt. cbn [values].
  by rewrite ParseInt_FormatInt.
Qed.

Lemma flattenIntCondition_conditionValueToInt_witness :
  conditionValueToInt
    (values (flattenIntCondition "updatedAt" "less_than" (- 2 ^ 63)))
  = inr (- 2 ^ 63).
Proof.
  apply flattenIntCondition_conditionValueToInt. unfold int64. lia.
Defined.

(** ** The resource identifier *)

Lemma cutFirst_Some sep s before after :
  cutFirst sep s = Some (before, after) →
  s = String.append before (String sep after)
  ∧ containsByte sep before = false.
Proof.
  revert before. induction s as [|c s IH]; intros before; simpl; [done|].
  destruct (Ascii.eqb_spec c sep) as [->|Hne].
  - by intros [= <- <-].
  - destruct (cutFirst sep s) as [[b a]|]; [|done].
    intros [= <- <-]. destruct (IH b eq_refl) as [-> Hb].
    simpl. split; [done|].
    destruct (Ascii.eqb_spec c sep); [done|]. by rewrite Hb.
Qed.

Lemma cutFirst_None sep s :
  cutFirst sep s = None ↔ containsByte sep s = false.
Proof.
  induction s as [|c s IH]; simpl; [done|].
  destruct (Ascii.eqb_spec c sep) as [->|Hne]; simpl; [done|].
  rewrite <- IH. by destruct (cutFirst sep s) as [[b a]|].
Qed.

Lemma cutFirst_append sep before after :
  containsByte sep before = false →
  cutFirst sep (String.append before (String sep after))
  = Some (before, after).
Proof.
  induction before as [|c b IH]; simpl.
  - intros _. by rewrite Ascii.eqb_refl.
  - destruct (Ascii.eqb_spec c sep); [done|]. simpl. intros H.
    by rewrite (IH H).
Qed.

(** X3: [parseImportedId] fails exactly on an identifier without an
    underscore; when it succeeds, the parts joined by an underscore are
    the identifier, and the first part has no underscore. *)
Theorem parseImportedId_outcome (importedId : string) :
  match parseImportedId importedId with
  | inr (detectorId, name) =>
      importedId = filterId detectorId name
      ∧ containsByte "_" detectorId = false
      ∧ containsByte "_" importedId = true
  | inl (BadImportId reported) =>
      reported = importedId ∧ containsByte "_" importedId = false
  end.
Proof.
  unfold parseImportedId, SplitN2.
  destruct (cutFirst "_" importedId) as [[b a]|] eqn:E.
  - apply cutFirst_Some in E as H. destruct H as [H1 H2].
    split; [done|]. split; [done|].
    destruct (containsByte "_" importedId) eqn:Hc; [done|].
    apply cutFirst_None in Hc. congruence.
  - split; [done|]. by apply cutFirst_None.
Qed.

(** X4: parsing the identifier that Create and Read build gives back the
    detector id and the name exactly when the detector id has no
    underscore; the name may contain any. *)
Theorem parseImportedId_filterId (detectorId name : string) :
  parseImportedId (filterId detectorId name) = inr (detectorId, name)
  ↔ containsByte "_" detectorId = false.
Proof.
  split.
  - intros H. unfold parseImportedId, SplitN2 in H.
    destruct (cutFirst "_" (filterId detectorId name)) as [[b a]|] eqn:E;
      [|done].
    injection H as -> ->. by apply cutFirst_Some in E as [_ E].
  - intros H. unfold parseImportedId, SplitN2, filterId.
    by rewrite cutFirst_append.
Qed.

(** ** Which lists the serializer accepts *)

Lemma serializeStep_Ok_acceptable (m : gmap string Condition) c :
  (∃ m', serializeStep m c = Ok m') ↔ acceptable c = true.
Proof.
  unfold acceptable.
  destruct (conditionAllowedForCriterion c) eqn:Ha; cbn [andb].
  - pose proof (serializeStep_accepted m c Ha) as Hs.
    inversion Hs as [Hc Heq|Hc Heq|Hc Heq|Hc Heq|Hc Heq|Hc Heq];
      rewrite Hc; cbn [isOrdering String.eqb Ascii.eqb Bool.eqb orb];
      try (split; eauto; fail);
      unfold setScalar;
      (destruct (conditionValueToInt (values c)) as [e|n];
       [ split; [|done]; intros [m' H]; by destruct (values c)
       | split; [done|]; intros _; destruct (m !! field c); eauto ]).
  - rewrite serializeStep_rejected by done. split; [|done]. by intros [m' H].
Qed.

Lemma serializeFrom_Ok_acceptable l :
  ∀ m : gmap string Condition,
    (∃ m', serializeFrom m l = Ok m') ↔ forallb acceptable l = true.
Proof.
  induction l as [|c l IH]; intros m; simpl; [split; eauto|].
  rewrite andb_true_iff, <- (serializeStep_Ok_acceptable m c). split.
  - intros [m' H]. destruct (serializeStep m c) as [m1| |] eqn:E; [|done|done].
    split; [eauto|]. apply (IH m1). eauto.
  - intros [[m1 E] H]. rewrite E. by apply IH.
Qed.

Lemma forallb_Permutation {A} (p : A → bool) (l l' : list A) :
  l ≡ₚ l' → forallb p l = forallb p l'.
Proof.
  induction 1 as [|x l l' _ IH|x y l|l l' l'' _ IH1 _ IH2]; simpl.
  - done.
  - by rewrite IH.
  - by rewrite !andb_assoc, (andb_comm (p y)).
  - by rewrite IH1.
Qed.

(** X5: Serialize returns a result exactly when every criterion is
    allowed for its field and every ordering criterion has a single value
    that parses; hence whether a set of criteria is accepted does not
    depend on the order in which the list presents them. *)
Theorem serialize_acceptance (l l' : list Criterion) :
  l ≡ₚ l' →
  ((∃ m, serializeFindingCriteria l = Ok m) ↔ forallb acceptable l = true)
  ∧ ((∃ m, serializeFindingCriteria l = Ok m)
     ↔ (∃ m', serializeFindingCriteria l' = Ok m')).
Proof.
  intros Hp. unfold serializeFindingCriteria.
  rewrite !serializeFrom_Ok_acceptable. split; [done|].
  by rewrite (forallb_Permutation acceptable l l' Hp).
Qed.

Lemma serialize_acceptance_witness :
  (∃ m, serializeFindingCriteria
          [mkCriterion "updatedAt" "greater_than" ["5"];
           mkCriterion "id" "equals" []] = Ok m)
  ↔ (∃ m', serializeFindingCriteria
          [mkCriterion "id" "equals" [];
           mkCriterion "updatedAt" "greater_than" ["5"]] = Ok m').
Proof.
  refine (proj2 (serialize_acceptance _ _ _)). apply Permutation_swap.
Defined.

(** ** Integers of the result *)

Lemma int64Condition_strings eq ne :
  int64Condition (mkCondition eq ne None None None None).
Proof. unfold int64Condition; simpl. split_and!; intros n [=]. Qed.

Lemma serializeStep_int64 (m : gmap string Condition) c m' :
  serializeStep m c = Ok m' →
  map_Forall (λ _ r, int64Condition r) m →
  map_Forall (λ _ r, int64Condition r) m'.
Proof.
  intros Hs Hm.
  destruct (conditionAllowedForCriterion c) eqn:Ha;
    [|by rewrite serializeStep_rejected in Hs].
  pose proof (serializeStep_accepted m c Ha) as Hshape. rewrite Hs in Hshape.
  inversion Hshape as [Hc Heq|Hc Heq|Hc Heq|Hc Heq|Hc Heq|Hc Heq];
    try (apply map_Forall_insert_2; [apply int64Condition_strings|done]);
    apply setScalar_Ok in Heq as (v & n & _ & Hp & ->);
    apply ParseInt_int64 in Hp;
    (apply map_Forall_insert_2; [|done]);
    (destruct (m !! field c) as [r|] eqn:E;
     [ specialize (Hm _ _ E); destruct Hm as (H1 & H2 & H3 & H4);
       unfold int64Condition; simpl; split_and!; try done;
       by intros ? [= <-]
     | unfold int64Condition; simpl; split_and!; intros ? [=]; by subst ]).
Qed.

(** X6: every integer that a successful Serialize stores, under any field
    and any of the four ordering attributes, is an int64. *)
Theorem serialize_int64 (l : list Criterion) (m : gmap string Condition)
    (f : string) (r : Condition) :
  serializeFindingCriteria l = Ok m → m !! f = Some r → int64Condition r.
Proof.
  unfold serializeFindingCriteria.
  assert (H : ∀ l (m0 m1 : gmap string Condition),
    serializeFrom m0 l = Ok m1 →
    map_Forall (λ _ r, int64Condition r) m0 →
    map_Forall (λ _ r, int64Condition r) m1).
  { clear. induction l as [|c l IH]; intros m0 m1; simpl.
    - by intros [= <-].
    - destruct (serializeStep m0 c) as [m'| |] eqn:E; [|done|done].
      intros Hs Hm. apply (IH _ _ Hs). by apply (serializeStep_int64 m0 c). }
  intros Hs Hf. apply (H l ∅ m Hs (map_Forall_empty _) f r Hf).
Qed.

Lemma serialize_int64_witness :
  int64Condition (mkCondition [] [] None None (Some 7) None).
Proof.
  apply (serialize_int64 [mkCriterion "updatedAt" "less_than" ["7"]]
           {["updatedAt" := mkCondition [] [] None None (Some 7) None]}
           "updatedAt").
  - vm_compute. reflexivity.
  - vm_compute. reflexivity.
Defined.

(** ** Schema validation and the serializer *)

Lemma allowed_registered c :
  conditionAllowedForCriterion c = true → field c ∈ criteriaFields.
Proof.
  unfold conditionAllowedForCriterion, criteriaMap, criteriaFields.
  destruct (assocLookup criteriaTable (field c)) as [v|] eqn:E; [|done].
  intros _. apply assocLookup_Some in E.
  change (map fst criteriaTable) with (criteriaTable.*1).
  apply list_elem_of_fmap. by exists (field c, v).
Qed.

Lemma allowed_schemaValid c :
  conditionAllowedForCriterion c = true → schemaValid c = true.
Proof.
  intros H. unfold schemaValid, StringInSlice. apply andb_true_iff. split.
  - apply containsString_elem. by apply allowed_registered.
  - apply containsString_elem. by apply (allowed_allSix (field c)).
Qed.

(** X7: a list that Serialize accepts holds only criteria that pass the
    schema's field and condition validations; and a criterion that passes
    them with condition equals or not_equals is never rejected, whatever
    its values and whatever was accumulated before. *)
Theorem serialize_schema_valid (l : list Criterion)
    (m : gmap string Condition) :
  serializeFindingCriteria l = Ok m →
  forallb schemaValid l = true
  ∧ ∀ c (m0 : gmap string Condition),
      schemaValid c = true → isSetValued (condition c) = true →
      ∃ m1, serializeStep m0 c = Ok m1.
Proof.
  intros Hs. split.
  - apply serializeFrom_Ok_allowed in Hs. apply forallb_forall.
    intros c Hc. rewrite Forall_forall in Hs.
    apply allowed_schemaValid, Hs. by apply list_elem_of_In.
  - intros c m0 Hv Hset. apply serializeStep_Ok_acceptable.
    unfold schemaValid, StringInSlice in Hv.
    apply andb_true_iff in Hv as [Hf _]. apply containsString_elem in Hf.
    unfold acceptable, conditionAllowedForCriterion.
    unfold isSetValued in Hset. apply orb_true_iff in Hset.
    assert (Hin : containsString (criteriaMap (field c)) (condition c) = true).
    { destruct (criteriaMap_registered _ Hf) as [-> | ->];
        destruct Hset as [Hc|Hc]; apply String.eqb_eq in Hc; by rewrite Hc. }
    rewrite Hin. cbn [andb].
    destruct Hset as [Hc|Hc]; apply String.eqb_eq in Hc; by rewrite Hc.
Qed.

Lemma serialize_schema_valid_witness :
  forallb schemaValid
    [mkCriterion "id" "equals" ["a"];
     mkCriterion "updatedAt" "less_than" ["7"]] = true.
Proof.
  refine (proj1 (serialize_schema_valid _
    (<["updatedAt" := mkCondition [] [] None None (Some 7) None]>
       (<["id" := mkCondition ["a"] [] None None None None]> ∅)) _)).
  vm_compute. reflexivity.
Defined.

(** ** Fields are serialized independently *)

Lemma serializeStep_other (m : gmap string Condition) c m' f :
  serializeStep m c = Ok m' → f ≠ field c → m' !! f = m !! f.
Proof.
  intros Hs Hf.
  destruct (conditionAllowedForCriterion c) eqn:Ha;
    [|by rewrite serializeStep_rejected in Hs].
  pose proof (serializeStep_accepted m c Ha) as Hshape. rewrite Hs in Hshape.
  inversion Hshape as [Hc Heq|Hc Heq|Hc Heq|Hc Heq|Hc Heq|Hc Heq];
    try (by rewrite lookup_insert_ne);
    apply setScalar_Ok in Heq as (v & n & _ & _ & ->);
    by rewrite lookup_insert_ne.
Qed.

Lemma setScalar_agree (m1 m2 : gmap string Condition) c fresh update :
  m1 !! field c = m2 !! field c →
  match setScalar m1 c fresh update, setScalar m2 c fresh update with
  | Ok a, Ok b => a !! field c = b !! field c
  | Err e1, Err e2 => e1 = e2
  | Panic, Panic => True
  | _, _ => False
  end.
Proof.
  intros H. unfold setScalar. rewrite H.
  destruct (conditionValueToInt (values c)).
  - by destruct (values c).
  - destruct (m2 !! field c); by rewrite !lookup_insert_eq.
Qed.

Lemma serializeStep_agree (m1 m2 : gmap string Condition) c :
  m1 !! field c = m2 !! field c →
  match serializeStep m1 c, serializeStep m2 c with
  | Ok a, Ok b => a !! field c = b !! field c
  | Err e1, Err e2 => e1 = e2
  | Panic, Panic => True
  | _, _ => False
  end.
Proof.
  intros H. unfold serializeStep.
  destruct (negb (conditionAllowedForCriterion c)); [done|].
  repeat (match goal with
          | |- context [if ?b then _ else _] => destruct b
          end;
          [first [ by rewrite !lookup_insert_eq
                 | by apply setScalar_agree ]|]).
  done.
Qed.

Lemma serializeStep_same_outcome (m1 m2 : gmap string Condition) c m1' :
  serializeStep m1 c = Ok m1' → ∃ m2', serializeStep m2 c = Ok m2'.
Proof.
  intros H. apply serializeStep_Ok_acceptable.
  apply (serializeStep_Ok_acceptable m1). eauto.
Qed.

Lemma serializeFrom_agree l (f : string) :
  ∀ (m1 m2 m1' : gmap string Condition),
    m1 !! f = m2 !! f → serializeFrom m1 l = Ok m1' →
    ∃ m2', serializeFrom m2 l = Ok m2' ∧ m1' !! f = m2' !! f.
Proof.
  induction l as [|c l IH]; intros m1 m2 m1' Hf; simpl.
  - intros [= <-]. eauto.
  - destruct (serializeStep m1 c) as [a| |] eqn:E1; [|done|done].
    destruct (serializeStep_same_outcome m1 m2 c a E1) as [b E2].
    rewrite E2. apply IH.
    destruct (decide (f = field c)) as [->|Hne].
    + pose proof (serializeStep_agree m1 m2 c Hf) as H.
      by rewrite E1, E2 in H.
    + by rewrite (serializeStep_other m1 c a f E1 Hne),
        (serializeStep_other m2 c b f E2 Hne).
Qed.

Lemma serializeFrom_filter_field l (f : string) :
  ∀ (m1 m2 m1' : gmap string Condition),
    m1 !! f = m2 !! f → serializeFrom m1 l = Ok m1' →
    ∃ m2', serializeFrom m2 (filter (λ c, field c = f) l) = Ok m2'
      ∧ m1' !! f = m2' !! f.
Proof.
  induction l as [|c l IH]; intros m1 m2 m1' Hf; simpl.
  - intros [= <-]. eauto.
  - destruct (serializeStep m1 c) as [a| |] eqn:E1; [|done|done].
    destruct (decide (field c = f)) as [e|Hne].
    + rewrite filter_cons_True by done. simpl.
      destruct (serializeStep_same_outcome m1 m2 c a E1) as [b E2].
      rewrite E2. apply IH. subst f.
      pose proof (serializeStep_agree m1 m2 c Hf) as H.
      by rewrite E1, E2 in H.
    + rewrite filter_cons_False by done. apply IH.
      by rewrite (serializeStep_other m1 c a f E1 (not_eq_sym Hne)).
Qed.

(** X8: the record that a successful Serialize holds for a field is the
    one it builds from the criteria of that field alone, in their order:
    criteria of other fields have no effect on it. *)
Theorem serialize_field_independent (l : list Criterion)
    (m : gmap string Condition) (f : string) :
  serializeFindingCriteria l = Ok m →
  ∃ m_f, serializeFindingCriteria (filter (λ c, field c = f) l) = Ok m_f
    ∧ m_f !! f = m !! f.
Proof.
  intros Hs.
  destruct (serializeFrom_filter_field l f ∅ ∅ m eq_refl Hs) as (m2 & H1 & H2).
  exists m2. by split.
Qed.

Lemma serialize_field_independent_witness :
  ∃ m_f, serializeFindingCriteria
           (filter (λ c, field c = "updatedAt")
              [mkCriterion "id" "equals" ["a"];
               mkCriterion "updatedAt" "less_than" ["7"]]) = Ok m_f
    ∧ m_f !! "updatedAt"
      = (<["updatedAt" := mkCondition [] [] None None (Some 7) None]>
           (<["id" := mkCondition ["a"] [] None None None None]> ∅
              : gmap string Condition)) !! "updatedAt".
Proof.
  apply serialize_field_independent. vm_compute. reflexivity.
Defined.

(** X9: an equals or not_equals criterion starts its field afresh: in an
    accepted list, the record of its field is the one that the list from
    that criterion on produces, whatever came before it. *)
Theorem serialize_set_valued_resets (pre post : list Criterion)
    (c : Criterion) (m : gmap string Condition) :
  isSetValued (condition c) = true →
  serializeFindingCriteria (pre ++ c :: post) = Ok m →
  ∃ m', serializeFindingCriteria (c :: post) = Ok m'
    ∧ m' !! field c = m !! field c.
Proof.
  intros Hset Hs. unfold serializeFindingCriteria in *.
  rewrite serializeFrom_app in Hs.
  destruct (serializeFrom ∅ pre) as [mp| |]; [|done|done].
  simpl in Hs |- *.
  destruct (serializeStep mp c) as [a| |] eqn:E1; [|done|done].
  destruct (serializeStep_same_outcome mp ∅ c a E1) as [b E2]. rewrite E2.
  assert (Hab : a !! field c = b !! field c).
  { destruct (conditionAllowedForCriterion c) eqn:Ha;
      [|by rewrite serializeStep_rejected in E1].
    unfold serializeStep in E1, E2. rewrite Ha in E1, E2. cbn [negb] in E1, E2.
    unfold isSetValued in Hset. apply orb_true_iff in Hset as [Hc|Hc];
      apply String.eqb_eq in Hc; rewrite Hc in E1, E2;
      cbn in E1, E2; injection E1 as <-; injection E2 as <-;
      by rewrite !lookup_insert_eq. }
  destruct (serializeFrom_agree post (field c) a b m Hab Hs) as (m' & H1 & H2).
  exists m'. by split.
Qed.

Lemma serialize_set_valued_resets_witness :
  ∃ m', serializeFindingCriteria [mkCriterion "updatedAt" "equals" ["1"]] = Ok m'
    ∧ m' !! "updatedAt"
      = ({["updatedAt" := mkCondition ["1"] [] None None None None]}
           : gmap string Condition) !! "updatedAt".
Proof.
  apply (serialize_set_valued_resets
           [mkCriterion "updatedAt" "greater_than" ["5"]] []
           (mkCriterion "updatedAt" "equals" ["1"])); [reflexivity|].
  vm_compute. reflexivity.
Defined.

(** ** What Flatten emits *)

Lemma flattenEntries_Permutation es es' :
  es ≡ₚ es' → flattenEntries es ≡ₚ flattenEntries es'.
Proof.
  induction 1 as [|[f r] es es' _ IH|[f r] [g q] es|es es' es'' _ IH1 _ IH2];
    simpl.
  - done.
  - by rewrite IH.
  - rewrite !(assoc_L (++)). f_equiv. apply Permutation_app_comm.
  - by rewrite IH1.
Qed.

Lemma NoDup_fmap_elem_inj {A B} (g : A → B) (l : list A) x y :
  NoDup (g <$> l) → x ∈ l → y ∈ l → g x = g y → x = y.
Proof.
  induction l as [|a l IH]; simpl; intros Hnd Hx Hy Hg.
  - inversion Hx.
  - apply NoDup_cons in Hnd as [Ha Hnd].
    apply elem_of_cons in Hx as [->|Hx]; apply elem_of_cons in Hy as [->|Hy].
    + done.
    + exfalso. apply Ha. rewrite Hg. apply list_elem_of_fmap. eauto.
    + exfalso. apply Ha. rewrite <- Hg. apply list_elem_of_fmap. eauto.
    + by apply IH.
Qed.

Lemma NoDup_flattenConditions_conditions f r :
  NoDup (condition <$> flattenConditions f r).
Proof.
  change (condition <$> flattenConditions f r)
    with (map condition (flattenConditions f r)).
  rewrite flattenConditions_conditions. apply NoDup_List_filter.
  apply (bool_decide_unpack _). vm_compute. exact I.
Qed.

Lemma NoDup_flattenEntries_keys es :
  NoDup es.*1 → NoDup (criterionKey <$> flattenEntries es).
Proof.
  intros Hnd. apply NoDup_fmap_2_strong; [|by apply NoDup_flattenEntries].
  intros x y Hx Hy [= Hf Hc].
  apply elem_of_flattenEntries in Hx as (rx & Hx1 & Hx2).
  apply elem_of_flattenEntries in Hy as (ry & Hy1 & Hy2).
  rewrite <- Hf in Hy1, Hy2.
  assert (rx = ry) as <-.
  { assert ((field x, rx) = (field x, ry)) as [= ->]; [|done].
    by apply (NoDup_fmap_elem_inj fst es). }
  apply (NoDup_fmap_elem_inj condition (flattenConditions (field x) rx));
    try done.
  apply NoDup_flattenConditions_conditions.
Qed.

Lemma flattenConditions_length f r :
  (length (flattenConditions f r) <= 6)%nat.
Proof.
  rewrite <- (length_fmap condition).
  change (condition <$> flattenConditions f r)
    with (map condition (flattenConditions f r)).
  rewrite flattenConditions_conditions.
  etransitivity; [apply List.filter_length_le|]. simpl. lia.
Qed.

Lemma flattenEntries_length es :
  (length (flattenEntries es) <= 6 * length es)%nat.
Proof.
  induction es as [|[f r] es IH]; simpl; [lia|].
  rewrite length_app. pose proof (flattenConditions_length f r). lia.
Qed.

(** X10: the criteria that Flatten emits do not depend on the order in
    which the map is visited, up to their own order; no two of them have
    the same field and condition; and there are at most six for each
    field of the map. *)
Theorem flatten_order_irrelevant (m : gmap string Condition)
    (order : list (string * Condition)) :
  iterationOrder m order →
  flattenEntries order ≡ₚ flattenFindingCriteria m
  ∧ NoDup (criterionKey <$> flattenEntries order)
  ∧ (length (flattenEntries order) <= 6 * size m)%nat.
Proof.
  intros Hord. split; [|split].
  - by apply flattenEntries_Permutation.
  - apply NoDup_flattenEntries_keys. by apply (iterationOrder_NoDup m).
  - etransitivity; [apply flattenEntries_length|].
    unfold iterationOrder in Hord. rewrite Hord, length_map_to_list. lia.
Qed.

Lemma flatten_order_irrelevant_witness :
  let m : gmap string Condition :=
    <["updatedAt" := mkCondition ["a"] [] None (Some 3) None (Some 9)]>
      (<["id" := mkCondition [] ["b"] None None None None]> ∅) in
  flattenEntries (reverse (map_to_list m)) ≡ₚ flattenFindingCriteria m.
Proof.
  intros m.
  refine (proj1 (flatten_order_irrelevant m (reverse (map_to_list m)) _)).
  unfold iterationOrder. apply reverse_Permutation.
Defined.

Lemma emitted_shape f r c :
  c ∈ flattenConditions f r →
  field c = f
  ∧ condition c ∈ schemaConditions
  ∧ values c ≠ []
  ∧ (isOrdering (condition c) = true →
       ∃ n, values c = [strconv.FormatInt n]
         ∧ (GreaterThan r = Some n ∨ GreaterThanOrEqual r = Some n
            ∨ LessThan r = Some n ∨ LessThanOrEqual r = Some n)).
Proof.
  rewrite elem_of_flattenConditions. unfold schemaConditions.
  intros [[H ->]|[[H ->]|[(n & H & ->)|[(n & H & ->)|[(n & H & ->)|(n & H & ->)]]]]];
    cbn [field condition values]; split_and!; try done;
    try (apply containsString_elem; reflexivity);
    try (intros [=]; fail);
    intros _; exists n; split; auto.
Qed.

(** X11: every criterion that Flatten emits names a field of the map, has
    one of the six conditions of the schema and at least one value; on a
    map whose integers are int64, it is also canonical: an ordering
    criterion has exactly one value, and [conditionValueToInt] reads it
    back. *)
Theorem flatten_emits_well_formed (m : gmap string Condition)
    (order : list (string * Condition)) (c : Criterion) :
  iterationOrder m order →
  c ∈ flattenEntries order →
  is_Some (m !! field c)
  ∧ StringInSlice schemaConditions (condition c) = true
  ∧ values c ≠ []
  ∧ (map_Forall (λ _ r, int64Condition r) m →
       canonicalCriterion c = true
       ∧ (isOrdering (condition c) = true →
            ∃ n, conditionValueToInt (values c) = inr n)).
Proof.
  intros Hord Hc. apply elem_of_flattenEntries in Hc as (r & Hin & Hc).
  apply (iterationOrder_lookup m order) in Hin; [|done].
  destruct (emitted_shape _ _ _ Hc) as (_ & Hcond & Hne & Hint).
  split; [eauto|]. split; [by apply containsString_elem|]. split; [done|].
  intros H64. specialize (H64 _ _ Hin). unfold canonicalCriterion.
  destruct (isOrdering (condition c)) eqn:Ho.
  - destruct (Hint eq_refl) as (n & Hv & Hn).
    assert (int64 n) as Hr.
    { destruct H64 as (H1 & H2 & H3 & H4).
      destruct Hn as [Hn|[Hn|[Hn|Hn]]]; eauto. }
    rewrite Hv. unfold conditionValueToInt.
    rewrite (ParseInt_FormatInt n Hr), String.eqb_refl. eauto.
  - split; [|done]. by destruct (values c).
Qed.

Lemma flatten_emits_well_formed_witness :
  canonicalCriterion (mkCriterion "updatedAt" "less_than" ["-7"]) = true.
Proof.
  refine (proj1 (proj2 (proj2 (proj2 (flatten_emits_well_formed
    {["updatedAt" := mkCondition [] [] None None (Some (-7)) None]}
    (map_to_list {["updatedAt" := mkCondition [] [] None None (Some (-7)) None]})
    (mkCriterion "updatedAt" "less_than" ["-7"])
    (iterationOrder_map_to_list _) _))) _)).
  - rewrite map_to_list_singleton. simpl. left.
  - apply map_Forall_singleton. unfold int64Condition. simpl.
    split_and!; intros n [= <-]. unfold int64. lia.
Defined.

(** ** From Flatten back to Serialize *)

Ltac emitted_attribute :=
  rewrite elem_of_flattenConditions; split;
  [ intros [[? [=]]|[[? [=]]|[(? & ? & [=])|[(? & ? & [=])|[(? & ? & [=])|(? & ? & [=])]]]]];
    subst; eauto
  | intros H; decompose record H; subst; eauto 10 ].

Lemma emitted_equals f r vs :
  mkCriterion f "equals" vs ∈ flattenConditions f r
  ↔ vs ≠ [] ∧ Equals r = vs.
Proof. emitted_attribute. Qed.

Lemma emitted_not_equals f r vs :
  mkCriterion f "not_equals" vs ∈ flattenConditions f r
  ↔ vs ≠ [] ∧ NotEquals r = vs.
Proof. emitted_attribute. Qed.

Lemma emitted_greater_than f r s :
  mkCriterion f "greater_than" [s] ∈ flattenConditions f r
  ↔ ∃ n, GreaterThan r = Some n ∧ s = strconv.FormatInt n.
Proof. emitted_attribute. Qed.

Lemma emitted_greater_than_or_equal f r s :
  mkCriterion f "greater_than_or_equal" [s] ∈ flattenConditions f r
  ↔ ∃ n, GreaterThanOrEqual r = Some n ∧ s = strconv.FormatInt n.
Proof. emitted_attribute. Qed.

Lemma emitted_less_than f r s :
  mkCriterion f "less_than" [s] ∈ flattenConditions f r
  ↔ ∃ n, LessThan r = Some n ∧ s = strconv.FormatInt n.
Proof. emitted_attribute. Qed.

Lemma emitted_less_than_or_equal f r s :
  mkCriterion f "less_than_or_equal" [s] ∈ flattenConditions f r
  ↔ ∃ n, LessThanOrEqual r = Some n ∧ s = strconv.FormatInt n.
Proof. emitted_attribute. Qed.

Lemma FormatInt_inj n n' :
  int64 n → int64 n' → strconv.FormatInt n = strconv.FormatInt n' → n = n'.
Proof.
  intros Hn Hn' H. apply ParseInt_FormatInt in Hn, Hn'.
  rewrite H in Hn. congruence.
Qed.

Lemma strings_attribute_eq (a b : list string) :
  (∀ vs, vs ≠ [] ∧ a = vs ↔ vs ≠ [] ∧ b = vs) → a = b.
Proof.
  intros H. destruct a as [|x a].
  - destruct b as [|y b]; [done|].
    by destruct (proj2 (H (y :: b))) as [_ ?].
  - by destruct (proj1 (H (x :: a))) as [_ ?].
Qed.

Lemma int_attribute_eq (a b : option Z) :
  (∀ n, a = Some n → int64 n) → (∀ n, b = Some n → int64 n) →
  (∀ s, (∃ n, a = Some n ∧ s = strconv.FormatInt n)
        ↔ (∃ n, b = Some n ∧ s = strconv.FormatInt n)) →
  a = b.
Proof.
  intros Ha Hb H. destruct a as [n|].
  - destruct (proj1 (H (strconv.FormatInt n))) as (n' & -> & E); [eauto|].
    f_equal. apply FormatInt_inj; auto.
  - destruct b as [n'|]; [|done].
    by destruct (proj2 (H (strconv.FormatInt n'))) as (n & ? & _); [eauto|].
Qed.

Lemma flattenConditions_inj f r r' :
  int64Condition r → int64Condition r' →
  (∀ x, x ∈ flattenConditions f r ↔ x ∈ flattenConditions f r') →
  r = r'.
Proof.
  intros (H1 & H2 & H3 & H4) (H1' & H2' & H3' & H4') H.
  assert (Equals r = Equals r') as E1.
  { apply strings_attribute_eq. intros vs.
    by rewrite <- !(emitted_equals f), H. }
  assert (NotEquals r = NotEquals r') as E2.
  { apply strings_attribute_eq. intros vs.
    by rewrite <- !(emitted_not_equals f), H. }
  assert (GreaterThan r = GreaterThan r') as E3.
  { apply int_attribute_eq; [done|done|]. intros s.
    by rewrite <- !(emitted_greater_than f), H. }
  assert (GreaterThanOrEqual r = GreaterThanOrEqual r') as E4.
  { apply int_attribute_eq; [done|done|]. intros s.
    by rewrite <- !(emitted_greater_than_or_equal f), H. }
  assert (LessThan r = LessThan r') as E5.
  { apply int_attribute_eq; [done|done|]. intros s.
    by rewrite <- !(emitted_less_than f), H. }
  assert (LessThanOrEqual r = LessThanOrEqual r') as E6.
  { apply int_attribute_eq; [done|done|]. intros s.
    by rewrite <- !(emitted_less_than_or_equal f), H. }
  destruct r, r'. simpl in *. congruence.
Qed.

Lemma serializeFrom_int64 l :
  ∀ (m0 m1 : gmap string Condition),
    serializeFrom m0 l = Ok m1 →
    map_Forall (λ _ r, int64Condition r) m0 →
    map_Forall (λ _ r, int64Condition r) m1.
Proof.
  induction l as [|c l IH]; intros m0 m1; simpl.
  - by intros [= <-].
  - destruct (serializeStep m0 c) as [m'| |] eqn:E; [|done|done].
    intros Hs Hm. apply (IH _ _ Hs). by apply (serializeStep_int64 m0 c).
Qed.

Lemma emitted_canonical f r c :
  int64Condition r → c ∈ flattenConditions f r → canonicalCriterion c = true.
Proof.
  intros (H1 & H2 & H3 & H4) Hc.
  destruct (emitted_shape _ _ _ Hc) as (_ & _ & Hne & Hint).
  unfold canonicalCriterion. destruct (isOrdering (condition c)) eqn:Ho.
  - destruct (Hint eq_refl) as (n & -> & Hn).
    assert (int64 n) as Hr by (destruct Hn as [Hn|[Hn|[Hn|Hn]]]; eauto).
    by rewrite (ParseInt_FormatInt n Hr), String.eqb_refl.
  - by destruct (values c).
Qed.

Lemma canonical_acceptable c :
  conditionAllowedForCriterion c = true → canonicalCriterion c = true →
  acceptable c = true.
Proof.
  unfold acceptable, canonicalCriterion, conditionValueToInt. intros -> H.
  cbn [andb]. destruct (isOrdering (condition c)); [|done].
  destruct (values c) as [|v [|w vs]]; [done| |done].
  by destruct (strconv.ParseInt v).
Qed.

Lemma serialize_is_Some (l : list Criterion) (m : gmap string Condition) f :
  serializeFindingCriteria l = Ok m →
  is_Some (m !! f) ↔ ∃ c, c ∈ l ∧ field c = f.
Proof.
  intros H. apply serializeFrom_dom in H.
  rewrite dom_empty_L, (right_id_L ∅ (∪)) in H.
  rewrite <- elem_of_dom, H, elem_of_list_to_set.
  change (map field l) with (field <$> l). rewrite list_elem_of_fmap.
  split; intros (c & ? & ?); exists c; done.
Qed.

(** X12: on a map whose integers are int64 and whose records each have
    an attribute, Serialize undoes Flatten: given the criteria that
    Flatten emits, in any order in which no equals or not_equals
    criterion comes after another criterion of its field, and all of them
    allowed by the registry, Serialize returns the map itself. *)
Theorem flatten_serialize_round_trip
    (m : gmap string Condition) (l : list Criterion) :
  map_Forall (λ f r, int64Condition r ∧ flattenConditions f r ≠ []) m →
  l ≡ₚ flattenFindingCriteria m →
  forallb conditionAllowedForCriterion l = true →
  keepsRecords [] l = true →
  serializeFindingCriteria l = Ok m.
Proof.
  intros Hm Hp Hal Hk.
  assert (Hem : ∀ x, x ∈ l ↔ emitted m x).
  { intros x. rewrite Hp.
    apply (emitted_flattenEntries m (map_to_list m) x).
    apply iterationOrder_map_to_list. }
  assert (Hcan : forallb canonicalCriterion l = true).
  { apply forallb_forall. intros c Hc. apply list_elem_of_In, Hem in Hc.
    destruct Hc as (r & Hr & Hc).
    apply (emitted_canonical (field c) r); [|done]. by apply (Hm _ _ Hr). }
  assert (Hacc : forallb acceptable l = true).
  { apply forallb_forall. intros c Hc.
    rewrite forallb_forall in Hal, Hcan. apply canonical_acceptable; auto. }
  apply (serializeFrom_Ok_acceptable l ∅) in Hacc as [m' Hs].
  assert (Hnd : NoDup (criterionKey <$> l)).
  { rewrite Hp. apply NoDup_flattenEntries_keys, NoDup_fst_map_to_list. }
  assert (Hem' : ∀ x, x ∈ l ↔ emitted m' x).
  { intros x. apply (serializeFrom_round_trip l ∅ [] [] m' Hs); try done.
    - intros y. split; [intros H; inversion H|].
      intros (r & H & _). by rewrite lookup_empty in H.
    - intros f. simpl. rewrite lookup_empty. split; [done|]. by intros [? ?]. }
  assert (H64 : map_Forall (λ _ r, int64Condition r) m').
  { apply (serializeFrom_int64 l ∅ m' Hs), map_Forall_empty. }
  unfold serializeFindingCriteria in *. rewrite Hs. f_equal.
  apply map_eq. intros f.
  destruct (m !! f) as [r|] eqn:E.
  - destruct (Hm _ _ E) as [Hr Hne].
    assert (is_Some (m' !! f)) as [r' E'].
    { apply (serialize_is_Some l m' f Hs).
      destruct (flattenConditions f r) as [|x xs] eqn:Ex; [done|].
      assert (x ∈ flattenConditions f r) as Hx by (rewrite Ex; left).
      pose proof (flattenConditions_field _ _ _ Hx) as Hf.
      exists x. split; [|done]. apply Hem. exists r. by rewrite Hf. }
    rewrite E'. f_equal. apply (flattenConditions_inj f); [by apply (H64 f)|done|].
    intros x. split; intros Hx.
    + pose proof (flattenConditions_field _ _ _ Hx) as Hf.
      assert (emitted m' x) as He by (exists r'; by rewrite Hf).
      apply Hem', Hem in He. destruct He as (r0 & Hr0 & Hx0).
      rewrite Hf, E in Hr0. injection Hr0 as <-. by rewrite Hf in Hx0.
    + pose proof (flattenConditions_field _ _ _ Hx) as Hf.
      assert (emitted m x) as He by (exists r; by rewrite Hf).
      apply Hem, Hem' in He. destruct He as (r0 & Hr0 & Hx0).
      rewrite Hf, E' in Hr0. injection Hr0 as <-. by rewrite Hf in Hx0.
  - destruct (m' !! f) as [r'|] eqn:E'; [exfalso|done].
    destruct (proj1 (serialize_is_Some l m' f Hs)) as (c & Hc & Hf); [eauto|].
    apply Hem in Hc. destruct Hc as (r & Hr & _). congruence.
Qed.

Lemma flatten_serialize_round_trip_witness :
  let m : gmap string Condition :=
    <["updatedAt" := mkCondition ["a"] [] None (Some 3) None (Some 9)]>
      (<["id" := mkCondition [] ["b"] None None None None]> ∅) in
  serializeFindingCriteria (flattenFindingCriteria m) = Ok m.
Proof.
  intros m. apply flatten_serialize_round_trip.
  - apply map_Forall_insert_2; [|apply map_Forall_insert_2;
                                  [|apply map_Forall_empty]].
    + split; [|done]. unfold int64Condition, int64. simpl.
      split_and!; intros n [= <-]; lia.
    + split; [|done]. unfold int64Condition, int64. simpl.
      split_and!; intros n [=].
  - reflexivity.
  - vm_compute. reflexivity.
  - vm_compute. reflexivity.
Defined.

(** ** Elasticsearch advanced security options *)

Lemma nonEmptyString_not_empty (m : gmap string Value) key :
  nonEmptyString m key ≠ Some "".
Proof.
  unfold nonEmptyString. destruct (m !! key) as [[| |v| |]|]; try done.
  destruct (String.eqb_spec v ""); [done|]. congruence.
Qed.

Lemma expandMasterUserOptions_not_empty v muo :
  expandMasterUserOptions v = Returns (Some muo) →
  MasterUserARN muo ≠ Some "" ∧ MasterUserName muo ≠ Some ""
  ∧ MasterUserPassword muo ≠ Some "".
Proof.
  unfold expandMasterUserOptions.
  destruct v as [|[| | | |g] v]; try done.
  intros [= <-]. simpl. split_and!; apply nonEmptyString_not_empty.
Qed.

(** X13: whatever the configuration, a result of
    [expandAdvancedSecurityOptions] sets the internal user database flag
    and the master user options only together with enabled = true, and a
    master user ARN, name or password that it sets is never the empty
    string. *)
Theorem expandAdvancedSecurityOptions_invariant
    (m : list Value) (config : AdvancedSecurityOptionsInput) :
  expandAdvancedSecurityOptions m = Returns config →
  (Enabled config ≠ Some true →
     InternalUserDatabaseEnabled config = None
     ∧ InputMasterUserOptions config = None)
  ∧ (∀ muo, InputMasterUserOptions config = Some muo →
       MasterUserARN muo ≠ Some "" ∧ MasterUserName muo ≠ Some ""
       ∧ MasterUserPassword muo ≠ Some "").
Proof.
  unfold expandAdvancedSecurityOptions.
  destruct m as [|[| | | |group] rest]; try done.
  destruct (group !! "enabled") as [[|[|]| | |]|]; try done.
  - destruct (group !! "master_user_options") as [[| | |v|]|];
      try (intros [= <-]; simpl; split; [done|]; intros muo [=]; fail).
    destruct (expandMasterUserOptions v) as [muo|] eqn:E; [|done].
    intros [= <-]. simpl. split; [done|]. intros muo' ->.
    by apply (expandMasterUserOptions_not_empty v).
  - intros [= <-]. simpl. split; [done|]. intros muo [=].
  - intros [= <-]. simpl. split; [done|]. intros muo [=].
Qed.

Lemma expandAdvancedSecurityOptions_invariant_witness :
  let muo := mkMasterUserOptions None (Some "admin") None in
  MasterUserARN muo ≠ Some "" ∧ MasterUserName muo ≠ Some ""
  ∧ MasterUserPassword muo ≠ Some "".
Proof.
  intros muo.
  refine (proj2 (expandAdvancedSecurityOptions_invariant
    [VMap (<["enabled" := VBool true]>
            (<["master_user_options" :=
                 VList [VMap (<["master_user_name" := VString "admin"]>
                               (<["master_user_password" := VString ""]> ∅))]]>
               ∅))]
    (mkAdvancedSecurityOptionsInput (Some true) None (Some muo)) _)
    muo eq_refl).
  vm_compute. reflexivity.
Defined.

(** X14: [expandAdvancedSecurityOptions] returns exactly when the list
    starts with a map whose "enabled", if present, is a bool and, when it
    is true, whose "master_user_options", if a non-empty list, starts
    with nil or with a map; in every other case (an empty list among
    them) the call panics. *)
Theorem expandAdvancedSecurityOptions_returns (m : list Value) :
  (∃ config, expandAdvancedSecurityOptions m = Returns config)
  ↔ ∃ group rest,
      m = VMap group :: rest
      ∧ (∀ v, group !! "enabled" = Some v → ∃ b, v = VBool b)
      ∧ (group !! "enabled" = Some (VBool true) →
           ∀ v0 vs, group !! "master_user_options" = Some (VList (v0 :: vs)) →
             v0 = VNil ∨ ∃ g, v0 = VMap g).
Proof.
  unfold expandAdvancedSecurityOptions. split.
  - intros [config H].
    destruct m as [|[| | | |group] rest]; try done.
    exists group, rest. split; [done|].
    destruct (group !! "enabled") as [[|[|]| | |]|]; try done.
    + split; [intros v [= <-]; eauto|]. intros _ v0 vs Hv. rewrite Hv in H.
      unfold expandMasterUserOptions in H.
      destruct v0; try done; eauto.
    + split; [intros v [= <-]; eauto|]. done.
  - intros (group & rest & -> & Hb & Hv).
    destruct (group !! "enabled") as [v|]; [|eauto].
    destruct (Hb v eq_refl) as [[|] ->]; [|eauto].
    destruct (group !! "master_user_options") as [[| | |[|v0 vs]|]|]; eauto.
    destruct (Hv eq_refl v0 vs eq_refl) as [->|[g ->]]; simpl; eauto.
Qed.

(** X15: [flattenAdvancedSecurityOptions] gives no map for nil and
    otherwise one map with exactly the keys "enabled" and
    "internal_user_database_enabled"; expanding that map again never
    panics, keeps the enabled flag (false for a nil pointer), keeps the
    internal user database flag only when enabled is true, and sets no
    master user options. *)
Theorem expand_flatten_advanced_security_options
    (o : AdvancedSecurityOptions) :
  flattenAdvancedSecurityOptions None = []
  ∧ (∃ g, flattenAdvancedSecurityOptions (Some o) = [g]
        ∧ dom g = {["enabled"; "internal_user_database_enabled"]})
  ∧ expandAdvancedSecurityOptions
      (VMap <$> flattenAdvancedSecurityOptions (Some o))
    = Returns (mkAdvancedSecurityOptionsInput
        (Some (BoolValue (OutputEnabled o)))
        (if BoolValue (OutputEnabled o)
         then Some (BoolValue (OutputInternalUserDatabaseEnabled o))
         else None)
        None).
Proof.
  split; [done|]. split.
  - eexists. split; [done|].
    rewrite !dom_insert_L, dom_empty_L. set_solver.
  - unfold flattenAdvancedSecurityOptions, expandAdvancedSecurityOptions.
    cbn [fmap list_fmap]. rewrite lookup_insert_eq.
    destruct (BoolValue (OutputEnabled o)); [|done].
    rewrite (lookup_insert_ne _ "enabled" "internal_user_database_enabled")
      by done.
    rewrite lookup_insert_eq.
    rewrite (lookup_insert_ne _ "enabled" "master_user_options") by done.
    rewrite (lookup_insert_ne _ "internal_user_database_enabled"
               "master_user_options") by done.
    by rewrite lookup_empty.
Qed.

(** ** The schema's field list and the registry *)

(** X16: the field validation of the schema, built from
    [criteriaFields], admits a field name exactly when the registry
    allows equals for it, and exactly when it allows not_equals; so a
    field that passes the schema is never unknown to the serializer. *)
Theorem criteriaFields_allowed (f : string) (vs : list string) :
  (StringInSlice criteriaFields f = true
   ↔ conditionAllowedForCriterion (mkCriterion f "equals" vs) = true)
  ∧ (StringInSlice criteriaFields f = true
     ↔ conditionAllowedForCriterion (mkCriterion f "not_equals" vs) = true).
Proof.
  unfold StringInSlice. rewrite containsString_elem.
  split; (split;
    [ intros Hf; unfold conditionAllowedForCriterion; cbn [field condition];
      by destruct (criteriaMap_registered f Hf) as [-> | ->]
    | intros H; by apply allowed_registered in H ]).
Qed.

(** ** The failure that is reported *)

Lemma serializeStep_failure (m : gmap string Condition) c :
  acceptable c = false →
  serializeStep m c
  = if negb (conditionAllowedForCriterion c)
    then Err (UnsupportedCondition (criteriaMap (field c)))
    else match values c with
         | [] => Panic
         | v0 :: _ => Err (NotAnInteger v0)
         end.
Proof.
  unfold acceptable.
  destruct (conditionAllowedForCriterion c) eqn:Ha; cbn [andb negb].
  - pose proof (serializeStep_accepted m c Ha) as Hs.
    inversion Hs as [Hc Heq|Hc Heq|Hc Heq|Hc Heq|Hc Heq|Hc Heq];
      rewrite Hc; cbn [isOrdering String.eqb Ascii.eqb Bool.eqb orb];
      try done; unfold setScalar;
      by destruct (conditionValueToInt (values c)).
  - intros _. by apply serializeStep_rejected.
Qed.

(** X17: Serialize stops at the first criterion that it does not accept
    and reports that one, whatever follows: the unsupported-condition
    error with the conditions allowed for the field, or, for an allowed
    ordering criterion, the not-an-integer error quoting the first value,
    also when there are several values, and a panic when there is
    none. *)
Theorem serialize_first_failure (pre post : list Criterion) (c : Criterion) :
  forallb acceptable pre = true →
  acceptable c = false →
  serializeFindingCriteria (pre ++ c :: post)
  = if negb (conditionAllowedForCriterion c)
    then Err (UnsupportedCondition (criteriaMap (field c)))
    else match values c with
         | [] => Panic
         | v0 :: _ => Err (NotAnInteger v0)
         end.
Proof.
  intros Hpre Hc. unfold serializeFindingCriteria.
  apply (serializeFrom_Ok_acceptable pre ∅) in Hpre as [m Hm].
  rewrite serializeFrom_app, Hm. cbn [serializeFrom].
  rewrite (serializeStep_failure m c Hc).
  destruct (negb (conditionAllowedForCriterion c)); [done|].
  by destruct (values c).
Qed.

Lemma serialize_first_failure_witness :
  serializeFindingCriteria
    ([mkCriterion "id" "equals" ["a"]]
       ++ mkCriterion "updatedAt" "less_than" ["5"; "6"]
       :: [mkCriterion "id" "greater_than" ["1"]])
  = Err (NotAnInteger "5").
Proof.
  exact (serialize_first_failure
           [mkCriterion "id" "equals" ["a"]]
           [mkCriterion "id" "greater_than" ["1"]]
           (mkCriterion "updatedAt" "less_than" ["5"; "6"])
           eq_refl eq_refl).
Defined.
